(** * interactions.h : per-bounce material scattering of the path tracer

    A shallow embedding of [calculateRandomDirectionInHemisphere],
    [scatterRay] and [isTerminated] from [src/interactions.h].

    Numbers.  The [float] quantities of the source are read in exact real
    arithmetic: a [float] is an element of [R], [==], [>] and [<] are the
    decidable comparisons of [R], [sqrt], [cos], [sin] are the real
    functions.  The counter [remainingBounces] is an integer of [Z]: its
    declaration is outside the sources, the source assigns 0 to it,
    decrements it and compares it with 0, and a signed decrement has no
    defined result at the least value of a machine type.

    Effects.  [scatterRay] mutates its [PathSegment &] argument and draws
    from the engine it is handed by reference; both are threaded explicitly:
    the embedded function returns the segment and the engine after the call. *)

From Stdlib Require Import Reals.Reals ZArith.ZArith Bool.Bool.
From Stdlib Require Import micromega.Lra micromega.Psatz micromega.Lia.

Local Open Scope R_scope.

(** ** Comparisons of the source as boolean tests *)

Definition Reqb (a b : R) : bool := if Req_dec_T a b then true else false.
Definition Rltb (a b : R) : bool := if Rlt_dec a b then true else false.
Definition Rgtb (a b : R) : bool := if Rgt_dec a b then true else false.

(** ** The part of glm the file uses *)

Module glm.

Record vec3 : Type := mkvec3 { x : R; y : R; z : R }.

(** [a + b], [a - b], [a * b] on vectors are componentwise. *)
Definition add (a b : vec3) : vec3 :=
  mkvec3 (x a + x b) (y a + y b) (z a + z b).
Definition sub (a b : vec3) : vec3 :=
  mkvec3 (x a - x b) (y a - y b) (z a - z b).
Definition mul (a b : vec3) : vec3 :=
  mkvec3 (x a * x b) (y a * y b) (z a * z b).

(** [s * v], [v * s] and [v / s] with a scalar [s]. *)
Definition smul (s : R) (v : vec3) : vec3 :=
  mkvec3 (s * x v) (s * y v) (s * z v).
Definition muls (v : vec3) (s : R) : vec3 :=
  mkvec3 (x v * s) (y v * s) (z v * s).
Definition divs (v : vec3) (s : R) : vec3 :=
  mkvec3 (x v / s) (y v / s) (z v / s).

Definition dot (a b : vec3) : R := x a * x b + y a * y b + z a * z b.

Definition cross (a b : vec3) : vec3 :=
  mkvec3 (y a * z b - y b * z a)
         (z a * x b - z b * x a)
         (x a * y b - x b * y a).

Definition length (v : vec3) : R := sqrt (dot v v).

(** [normalize(v) = v * inversesqrt(dot(v, v))]. *)
Definition normalize (v : vec3) : vec3 := muls v (1 / sqrt (dot v v)).

(** [reflect(I, N) = I - N * dot(N, I) * 2]. *)
Definition reflect (I N : vec3) : vec3 :=
  sub I (muls (muls N (dot N I)) 2).

(** [refract(I, N, eta)]: the zero vector when [k < 0], else
    [eta * I - (eta * dot(N, I) + sqrt(k)) * N]. *)
Definition refract (I N : vec3) (eta : R) : vec3 :=
  let dotValue := dot N I in
  let k := 1 - eta * eta * (1 - dotValue * dotValue) in
  if Rltb k 0 then mkvec3 0 0 0
  else sub (smul eta I) (smul (eta * dotValue + sqrt k) N).

End glm.

(** ** Constants of utilities.h *)

(** Modelled from the spec: the macros [PI], [TWO_PI] and
    [SQRT_OF_ONE_THIRD] are defined in a header that is not part of the
    sources; in exact arithmetic they are pi, [2*pi] and [sqrt(1/3)] (the
    spec's "[phi = 2*pi*u2]" and "test against [sqrt(1/3)]").  The real pi is
    [PI] of the standard library. *)
Definition TWO_PI : R := 2 * PI.
Definition SQRT_OF_ONE_THIRD : R := sqrt (1 / 3).

(** ** The random engine *)

(** A [thrust::default_random_engine] read through
    [thrust::uniform_real_distribution<float> u01(0, 1)] is the sequence of
    values the successive calls [u01(rng)] deliver.  A call returns the head
    of the sequence and leaves the engine at its tail. *)
Definition engine : Type := nat -> R.

Definition u01 (rng : engine) : R * engine :=
  (rng 0%nat, fun k => rng (S k)).

(** The contract of the distribution: every value delivered is in [0,1). *)
Definition uniform01 (rng : engine) : Prop := forall k, 0 <= rng k < 1.

(** ** calculateRandomDirectionInHemisphere *)

(** Lines 24-37: the axis that is not the normal and the two perpendicular
    directions built from it; they depend on the normal only. *)
Definition directionNotNormal (normal : glm.vec3) : glm.vec3 :=
  if Rltb (Rabs (glm.x normal)) SQRT_OF_ONE_THIRD then glm.mkvec3 1 0 0
  else if Rltb (Rabs (glm.y normal)) SQRT_OF_ONE_THIRD then glm.mkvec3 0 1 0
  else glm.mkvec3 0 0 1.

Definition perpendicularDirection1 (normal : glm.vec3) : glm.vec3 :=
  glm.normalize (glm.cross normal (directionNotNormal normal)).

Definition perpendicularDirection2 (normal : glm.vec3) : glm.vec3 :=
  glm.normalize (glm.cross normal (perpendicularDirection1 normal)).

Definition calculateRandomDirectionInHemisphere
  (normal : glm.vec3) (rng : engine) : glm.vec3 * engine :=
  let (u1, rng1) := u01 rng in
  let up := sqrt u1 in
  let over := sqrt (1 - up * up) in
  let (u2, rng2) := u01 rng1 in
  let around := u2 * TWO_PI in
  let perpendicularDirection1 := perpendicularDirection1 normal in
  let perpendicularDirection2 := perpendicularDirection2 normal in
  (glm.add
     (glm.add (glm.smul up normal)
              (glm.smul (cos around * over) perpendicularDirection1))
     (glm.smul (sin around * over) perpendicularDirection2),
   rng2).

(** ** Data of sceneStructs.h *)

(** Modelled from the spec: the declarations of [Ray], [PathSegment] and
    [Material] are in a header that is not part of the sources.  The records
    below carry the fields the spec lists and the source reads or writes:
    [ray.origin], [ray.direction], [color], [remainingBounces] ("integer
    budget") of a segment; [color], [specular.color], [hasReflective],
    [hasRefractive], [indexOfRefraction] of a material. *)
Module Ray.
Record t : Type := mk { origin : glm.vec3; direction : glm.vec3 }.
End Ray.

Module PathSegment.
Record t : Type := mk {
  ray : Ray.t;
  color : glm.vec3;
  remainingBounces : Z
}.
End PathSegment.

Module Specular.
Record t : Type := mk { color : glm.vec3 }.
End Specular.

Module Material.
Record t : Type := mk {
  color : glm.vec3;
  specular : Specular.t;
  hasReflective : R;
  hasRefractive : R;
  indexOfRefraction : R
}.
End Material.

(** ** scatterRay *)

(** [powf(b, 5.0f)]: with the integral exponent 5 this is the fifth power of
    [b], whatever the sign of [b]. *)
Definition powf5 (b : R) : R := b ^ 5.

(** The dielectric set-up of lines 116-131: the working normal
    [refractNormal], the ratio [niOvernt], [cosine] and [discriminant]. *)
Definition refractNormal (pathSegment : PathSegment.t) (normal : glm.vec3)
  : glm.vec3 :=
  if Rgtb (glm.dot (Ray.direction (PathSegment.ray pathSegment)) normal) 0
  then glm.smul (-1) normal
  else normal.

Definition niOvernt (pathSegment : PathSegment.t) (normal : glm.vec3)
  (m : Material.t) : R :=
  if Rgtb (glm.dot (Ray.direction (PathSegment.ray pathSegment)) normal) 0
  then Material.indexOfRefraction m
  else 1 / Material.indexOfRefraction m.

Definition cosine (pathSegment : PathSegment.t) (normal : glm.vec3) : R :=
  glm.dot (Ray.direction (PathSegment.ray pathSegment))
          (refractNormal pathSegment normal).

Definition discriminant (pathSegment : PathSegment.t) (normal : glm.vec3)
  (m : Material.t) : R :=
  1 - niOvernt pathSegment normal m * niOvernt pathSegment normal m
      * (1 - cosine pathSegment normal * cosine pathSegment normal).

(** Lines 136-138. *)
Definition reflectProb (pathSegment : PathSegment.t) (normal : glm.vec3)
  (m : Material.t) : R :=
  let r0 := (1 - niOvernt pathSegment normal m)
            / (1 + niOvernt pathSegment normal m) in
  let r0 := r0 * r0 in
  r0 + (1 - r0) * powf5 (1 - Rmax 0 (cosine pathSegment normal)).

Definition scatterRay (pathSegment : PathSegment.t)
  (intersect normal : glm.vec3) (m : Material.t) (rng : engine)
  : PathSegment.t * engine :=
  if Reqb (Material.hasReflective m) 0 && Reqb (Material.hasRefractive m) 0
  then
    let (rayDirection, rng1) :=
      calculateRandomDirectionInHemisphere normal rng in
    let nDotr := Rabs (glm.dot normal rayDirection) in
    let pdf := nDotr / PI in
    let f := glm.divs (Material.color m) PI in
    if Reqb pdf 0 then
      (PathSegment.mk (PathSegment.ray pathSegment) (glm.mkvec3 0 0 0) 0%Z,
       rng1)
    else
      (PathSegment.mk
         (Ray.mk (glm.add intersect (glm.muls normal (1 / 10000)))
                 rayDirection)
         (glm.mul (PathSegment.color pathSegment)
                  (glm.divs (glm.muls f nDotr) pdf))
         (PathSegment.remainingBounces pathSegment - 1)%Z,
       rng1)
  else if Reqb (Material.hasReflective m) 1
          && Reqb (Material.hasRefractive m) 0
  then
    let rayDirection :=
      glm.reflect (Ray.direction (PathSegment.ray pathSegment)) normal in
    (PathSegment.mk
       (Ray.mk (glm.add intersect (glm.muls normal (1 / 10000)))
               rayDirection)
       (glm.mul (PathSegment.color pathSegment)
                (Specular.color (Material.specular m)))
       (PathSegment.remainingBounces pathSegment - 1)%Z,
     rng)
  else if Reqb (Material.hasReflective m) 1
          && Reqb (Material.hasRefractive m) 1
  then
    let refractNormal := refractNormal pathSegment normal in
    let niOvernt := niOvernt pathSegment normal m in
    if Rgtb (discriminant pathSegment normal m) 0 then
      let reflectProb := reflectProb pathSegment normal m in
      let (random, rng1) := u01 rng in
      if Rgtb random (reflectProb / (3 / 2)) then
        let rayDirection :=
          glm.reflect (Ray.direction (PathSegment.ray pathSegment))
                      refractNormal in
        (PathSegment.mk
           (Ray.mk (glm.add intersect (glm.muls refractNormal (1 / 100)))
                   rayDirection)
           (glm.mul (PathSegment.color pathSegment)
                    (Specular.color (Material.specular m)))
           (PathSegment.remainingBounces pathSegment - 1)%Z,
         rng1)
      else
        let refractedDir :=
          glm.refract (Ray.direction (PathSegment.ray pathSegment))
                      refractNormal niOvernt in
        (PathSegment.mk
           (Ray.mk (glm.add intersect (glm.muls refractedDir (1 / 100)))
                   (glm.normalize refractedDir))
           (glm.mul (PathSegment.color pathSegment)
                    (Specular.color (Material.specular m)))
           (PathSegment.remainingBounces pathSegment - 1)%Z,
         rng1)
    else
      let rayDirection :=
        glm.reflect (Ray.direction (PathSegment.ray pathSegment))
                    refractNormal in
      (PathSegment.mk
         (Ray.mk (glm.add intersect (glm.muls refractNormal (1 / 100)))
                 rayDirection)
         (glm.mkvec3 0 0 0)
         (PathSegment.remainingBounces pathSegment - 1)%Z,
       rng)
  else (pathSegment, rng).

(** The values the locals [nDotr] and [pdf] of the diffuse branch take
    (lines 83-85), as functions of the inputs they depend on. *)
Definition diffuse_nDotr (normal : glm.vec3) (rng : engine) : R :=
  Rabs (glm.dot normal (fst (calculateRandomDirectionInHemisphere normal rng))).

Definition diffuse_pdf (normal : glm.vec3) (rng : engine) : R :=
  diffuse_nDotr normal rng / PI.

(** ** isTerminated *)

(** [operator()] takes the segment by [const] reference and returns
    [remainingBounces > 0]. *)
Definition isTerminated (pathSegment : PathSegment.t) : bool :=
  (0 <? PathSegment.remainingBounces pathSegment)%Z.

(** The same call with the store made explicit: the result together with the
    segment as it is after the call.  No statement of the body assigns to
    the segment. *)
Definition isTerminated_call (pathSegment : PathSegment.t)
  : bool * PathSegment.t :=
  (isTerminated pathSegment, pathSegment).

(** ** Throughput *)

(** A colour is a throughput when none of its channels is negative. *)
Definition nonneg (c : glm.vec3) : Prop :=
  0 <= glm.x c /\ 0 <= glm.y c /\ 0 <= glm.z c.

(** ** Dispatch and engine position *)

(** The flag pairs for which [scatterRay] has a branch (lines 82, 101, 112). *)
Definition matched_flags (m : Material.t) : Prop :=
  (Material.hasReflective m = 0 /\ Material.hasRefractive m = 0)
  \/ (Material.hasReflective m = 1 /\ Material.hasRefractive m = 0)
  \/ (Material.hasReflective m = 1 /\ Material.hasRefractive m = 1).

(** The engine after [k] calls of [u01]. *)
Definition advance (k : nat) (rng : engine) : engine :=
  fun i => rng (k + i)%nat.

(** ** Sample inputs *)

(** A segment travelling along [d] with white throughput and five bounces
    left, a material with albedo 0.8, white specular tint and index of
    refraction 1.5 under the given flags, and the engine that delivers the
    same value at every draw. *)
Definition sample_segment (d : glm.vec3) : PathSegment.t :=
  PathSegment.mk (Ray.mk (glm.mkvec3 0 0 0) d) (glm.mkvec3 1 1 1) 5.

Definition sample_material (hasReflective hasRefractive : R) : Material.t :=
  Material.mk (glm.mkvec3 (4 / 5) (4 / 5) (4 / 5))
              (Specular.mk (glm.mkvec3 1 1 1))
              hasReflective hasRefractive (3 / 2).

Definition constant_engine (u : R) : engine := fun _ => u.

(** * Properties *)

(** ** The boolean tests decide the comparisons *)

Lemma Reqb_true (a b : R) : Reqb a b = true <-> a = b.
Proof. unfold Reqb; destruct (Req_dec_T a b); split; congruence. Qed.

Lemma Reqb_false (a b : R) : Reqb a b = false <-> a <> b.
Proof. unfold Reqb; destruct (Req_dec_T a b); split; congruence. Qed.

Lemma Rltb_true (a b : R) : Rltb a b = true <-> a < b.
Proof. unfold Rltb; destruct (Rlt_dec a b); split; congruence. Qed.

Lemma Rltb_false (a b : R) : Rltb a b = false <-> b <= a.
Proof.
  unfold Rltb; destruct (Rlt_dec a b); split; intros; try congruence; lra.
Qed.

Lemma Rgtb_true (a b : R) : Rgtb a b = true <-> a > b.
Proof. unfold Rgtb; destruct (Rgt_dec a b); split; congruence. Qed.

Lemma Rgtb_false (a b : R) : Rgtb a b = false <-> a <= b.
Proof.
  unfold Rgtb; destruct (Rgt_dec a b); split; intros; try congruence; lra.
Qed.

(** ** Vector algebra *)

Section VectorAlgebra.

Import glm.

Lemma vec3_eq (a b : vec3) :
  x a = x b -> y a = y b -> z a = z b -> a = b.
Proof. destruct a, b; simpl; intros; subst; reflexivity. Qed.

Lemma dot_comm (a b : vec3) : dot a b = dot b a.
Proof. unfold dot; ring. Qed.

Lemma dot_self_nonneg (a : vec3) : 0 <= dot a a.
Proof. unfold dot; nra. Qed.

Lemma dot_muls_r (a b : vec3) (s : R) : dot a (muls b s) = dot a b * s.
Proof. unfold dot, muls; simpl; ring. Qed.

Lemma dot_muls_muls (a : vec3) (s : R) :
  dot (muls a s) (muls a s) = dot a a * (s * s).
Proof. unfold dot, muls; simpl; ring. Qed.

(** A cross product is orthogonal to its first factor. *)
Lemma dot_cross_l (a b : vec3) : dot a (cross a b) = 0.
Proof. unfold dot, cross; simpl; ring. Qed.

(** Lagrange's identity. *)
Lemma dot_cross_cross (a b : vec3) :
  dot (cross a b) (cross a b) = dot a a * dot b b - dot a b * dot a b.
Proof. unfold dot, cross; simpl; ring. Qed.

(** Normalising a vector that is not null gives a unit vector. *)
Lemma dot_normalize (v : vec3) :
  0 < dot v v -> dot (normalize v) (normalize v) = 1.
Proof.
  intros Hv. unfold normalize. rewrite dot_muls_muls.
  assert (Hs : 0 < sqrt (dot v v)) by (apply sqrt_lt_R0; exact Hv).
  assert (Hq : sqrt (dot v v) * sqrt (dot v v) = dot v v)
    by (apply sqrt_sqrt; lra).
  rewrite <- Hq at 1. field. lra.
Qed.

Lemma normalize_unit (v : vec3) : dot v v = 1 -> normalize v = v.
Proof.
  intros Hv. unfold normalize, muls. rewrite Hv, sqrt_1.
  apply vec3_eq; simpl; field.
Qed.

(** Products of the combination [a*n + b*p + c*q] the sampler returns. *)
Lemma dot_comb_l (a b c : R) (n p q : vec3) :
  dot (add (add (smul a n) (smul b p)) (smul c q)) n
  = a * dot n n + b * dot n p + c * dot n q.
Proof. unfold dot, add, smul; simpl; ring. Qed.

Lemma dot_comb_self (a b c : R) (n p q : vec3) :
  dot (add (add (smul a n) (smul b p)) (smul c q))
      (add (add (smul a n) (smul b p)) (smul c q))
  = a * a * dot n n + b * b * dot p p + c * c * dot q q
    + 2 * a * b * dot n p + 2 * a * c * dot n q + 2 * b * c * dot p q.
Proof. unfold dot, add, smul; simpl; ring. Qed.

End VectorAlgebra.

(** ** The hemisphere sampler *)

Section Hemisphere.

Variable normal : glm.vec3.
Hypothesis normal_unit : glm.dot normal normal = 1.

Lemma SQRT_OF_ONE_THIRD_sqr :
  0 < SQRT_OF_ONE_THIRD /\ SQRT_OF_ONE_THIRD * SQRT_OF_ONE_THIRD = 1 / 3.
Proof.
  unfold SQRT_OF_ONE_THIRD; split.
  - apply sqrt_lt_R0; lra.
  - apply sqrt_sqrt; lra.
Qed.

Lemma Rabs_sqr_lt (a s : R) : Rabs a < s -> a * a < s * s.
Proof.
  unfold Rabs; destruct (Rcase_abs a); intros; nra.
Qed.

Lemma Rabs_sqr_ge (a s : R) : 0 <= s -> s <= Rabs a -> s * s <= a * a.
Proof.
  unfold Rabs; destruct (Rcase_abs a); intros; nra.
Qed.

(** The axis picked is never parallel to the normal: the first cross
    product is not the null vector. *)
Lemma cross_directionNotNormal_pos :
  0 < glm.dot (glm.cross normal (directionNotNormal normal))
              (glm.cross normal (directionNotNormal normal)).
Proof.
  destruct SQRT_OF_ONE_THIRD_sqr as [Hs Hss].
  rewrite dot_cross_cross, normal_unit.
  unfold directionNotNormal.
  destruct (Rltb (Rabs (glm.x normal)) SQRT_OF_ONE_THIRD) eqn:Hx.
  - apply Rltb_true, Rabs_sqr_lt in Hx.
    unfold glm.dot; simpl. nra.
  - apply Rltb_false in Hx. apply Rabs_sqr_ge in Hx; [|lra].
    destruct (Rltb (Rabs (glm.y normal)) SQRT_OF_ONE_THIRD) eqn:Hy.
    + apply Rltb_true, Rabs_sqr_lt in Hy.
      unfold glm.dot; simpl. nra.
    + apply Rltb_false in Hy. apply Rabs_sqr_ge in Hy; [|lra].
      revert normal_unit. unfold glm.dot; simpl. nra.
Qed.

Lemma perp1_unit :
  glm.dot (perpendicularDirection1 normal) (perpendicularDirection1 normal)
  = 1.
Proof. apply dot_normalize, cross_directionNotNormal_pos. Qed.

Lemma perp1_orth : glm.dot normal (perpendicularDirection1 normal) = 0.
Proof.
  unfold perpendicularDirection1, glm.normalize.
  rewrite dot_muls_r, dot_cross_l. ring.
Qed.

Lemma cross_perp1_unit :
  glm.dot (glm.cross normal (perpendicularDirection1 normal))
          (glm.cross normal (perpendicularDirection1 normal)) = 1.
Proof.
  rewrite dot_cross_cross, normal_unit, perp1_unit, perp1_orth. ring.
Qed.

Lemma perp2_eq :
  perpendicularDirection2 normal
  = glm.cross normal (perpendicularDirection1 normal).
Proof. apply normalize_unit, cross_perp1_unit. Qed.

Lemma perp2_unit :
  glm.dot (perpendicularDirection2 normal) (perpendicularDirection2 normal)
  = 1.
Proof. rewrite perp2_eq. apply cross_perp1_unit. Qed.

Lemma perp2_orth : glm.dot normal (perpendicularDirection2 normal) = 0.
Proof. rewrite perp2_eq. apply dot_cross_l. Qed.

Lemma perp12_orth :
  glm.dot (perpendicularDirection1 normal) (perpendicularDirection2 normal) = 0.
Proof.
  rewrite perp2_eq. unfold glm.dot, glm.cross; simpl. ring.
Qed.

(** The direction returned, as a combination of the orthonormal frame. *)
Lemma hemisphere_direction (rng : engine) :
  fst (calculateRandomDirectionInHemisphere normal rng)
  = glm.add
      (glm.add (glm.smul (sqrt (rng 0%nat)) normal)
         (glm.smul (cos (rng 1%nat * TWO_PI)
                    * sqrt (1 - sqrt (rng 0%nat) * sqrt (rng 0%nat)))
                   (perpendicularDirection1 normal)))
      (glm.smul (sin (rng 1%nat * TWO_PI)
                 * sqrt (1 - sqrt (rng 0%nat) * sqrt (rng 0%nat)))
                (perpendicularDirection2 normal)).
Proof. reflexivity. Qed.

Lemma hemisphere_dot_normal (rng : engine) :
  glm.dot (fst (calculateRandomDirectionInHemisphere normal rng)) normal
  = sqrt (rng 0%nat).
Proof.
  rewrite hemisphere_direction, dot_comb_l.
  rewrite normal_unit, perp1_orth, perp2_orth. ring.
Qed.

Lemma hemisphere_dot_self (rng : engine) :
  0 <= rng 0%nat <= 1 ->
  glm.dot (fst (calculateRandomDirectionInHemisphere normal rng))
          (fst (calculateRandomDirectionInHemisphere normal rng)) = 1.
Proof.
  intros Hu.
  rewrite hemisphere_direction, dot_comb_self.
  rewrite normal_unit, perp1_unit, perp2_unit, perp1_orth, perp2_orth,
    perp12_orth.
  set (u := rng 0%nat) in *. set (a := rng 1%nat * TWO_PI).
  assert (Hup : sqrt u * sqrt u = u) by (apply sqrt_sqrt; lra).
  rewrite Hup.
  assert (Hov : sqrt (1 - u) * sqrt (1 - u) = 1 - u) by (apply sqrt_sqrt; lra).
  pose proof (sin2_cos2 a) as Hsc. unfold Rsqr in Hsc.
  replace (cos a * sqrt (1 - u) * (cos a * sqrt (1 - u)))
    with (cos a * cos a * (sqrt (1 - u) * sqrt (1 - u))) by ring.
  replace (sin a * sqrt (1 - u) * (sin a * sqrt (1 - u)))
    with (sin a * sin a * (sqrt (1 - u) * sqrt (1 - u))) by ring.
  rewrite Hov. nra.
Qed.

End Hemisphere.

(** ** The branches of scatterRay *)

(** Rewrites the flag tests of [scatterRay] from the values of the flags. *)
Ltac flags :=
  repeat match goal with
  | H : ?a = ?b |- context [Reqb ?a ?b] =>
      rewrite (proj2 (Reqb_true a b) H)
  | H : ?a = ?c |- context [Reqb ?a ?b] =>
      rewrite (proj2 (Reqb_false a b)) by (rewrite H; lra)
  | H : ?a <> ?b |- context [Reqb ?a ?b] =>
      rewrite (proj2 (Reqb_false a b) H)
  end; simpl andb; cbv iota.

Section Branches.

Variables (pathSegment : PathSegment.t) (intersect normal : glm.vec3).
Variables (m : Material.t) (rng : engine).

Lemma scatterRay_diffuse_zero :
  Material.hasReflective m = 0 -> Material.hasRefractive m = 0 ->
  diffuse_pdf normal rng = 0 ->
  scatterRay pathSegment intersect normal m rng
  = (PathSegment.mk (PathSegment.ray pathSegment) (glm.mkvec3 0 0 0) 0%Z,
     snd (calculateRandomDirectionInHemisphere normal rng)).
Proof.
  intros Hr Hf Hp. unfold scatterRay. flags.
  destruct (calculateRandomDirectionInHemisphere normal rng) as [d g] eqn:E.
  unfold diffuse_pdf, diffuse_nDotr in Hp. rewrite E in Hp. simpl in Hp.
  flags. reflexivity.
Qed.

Lemma scatterRay_diffuse_pos :
  Material.hasReflective m = 0 -> Material.hasRefractive m = 0 ->
  diffuse_pdf normal rng <> 0 ->
  scatterRay pathSegment intersect normal m rng
  = (PathSegment.mk
       (Ray.mk (glm.add intersect (glm.muls normal (1 / 10000)))
               (fst (calculateRandomDirectionInHemisphere normal rng)))
       (glm.mul (PathSegment.color pathSegment)
          (glm.divs (glm.muls (glm.divs (Material.color m) PI)
                              (diffuse_nDotr normal rng))
                    (diffuse_pdf normal rng)))
       (PathSegment.remainingBounces pathSegment - 1)%Z,
     snd (calculateRandomDirectionInHemisphere normal rng)).
Proof.
  intros Hr Hf Hp. unfold scatterRay. flags.
  destruct (calculateRandomDirectionInHemisphere normal rng) as [d g] eqn:E.
  unfold diffuse_pdf, diffuse_nDotr in *. rewrite E in *. simpl in Hp |- *.
  flags. reflexivity.
Qed.

Lemma scatterRay_mirror :
  Material.hasReflective m = 1 -> Material.hasRefractive m = 0 ->
  scatterRay pathSegment intersect normal m rng
  = (PathSegment.mk
       (Ray.mk (glm.add intersect (glm.muls normal (1 / 10000)))
               (glm.reflect (Ray.direction (PathSegment.ray pathSegment))
                            normal))
       (glm.mul (PathSegment.color pathSegment)
                (Specular.color (Material.specular m)))
       (PathSegment.remainingBounces pathSegment - 1)%Z,
     rng).
Proof. intros Hr Hf. unfold scatterRay. flags. reflexivity. Qed.

(** The dielectric branch, with its three outcomes. *)

Lemma scatterRay_dielectric_reflect :
  Material.hasReflective m = 1 -> Material.hasRefractive m = 1 ->
  discriminant pathSegment normal m > 0 ->
  rng 0%nat > reflectProb pathSegment normal m / (3 / 2) ->
  scatterRay pathSegment intersect normal m rng
  = (PathSegment.mk
       (Ray.mk
          (glm.add intersect
             (glm.muls (refractNormal pathSegment normal) (1 / 100)))
          (glm.reflect (Ray.direction (PathSegment.ray pathSegment))
                       (refractNormal pathSegment normal)))
       (glm.mul (PathSegment.color pathSegment)
                (Specular.color (Material.specular m)))
       (PathSegment.remainingBounces pathSegment - 1)%Z,
     snd (u01 rng)).
Proof.
  intros Hr Hf Hd Hu. unfold scatterRay. flags.
  rewrite (proj2 (Rgtb_true _ _) Hd). unfold u01; cbv beta iota zeta.
  rewrite (proj2 (Rgtb_true _ _) Hu). reflexivity.
Qed.

Lemma scatterRay_dielectric_refract :
  Material.hasReflective m = 1 -> Material.hasRefractive m = 1 ->
  discriminant pathSegment normal m > 0 ->
  rng 0%nat <= reflectProb pathSegment normal m / (3 / 2) ->
  scatterRay pathSegment intersect normal m rng
  = (PathSegment.mk
       (Ray.mk
          (glm.add intersect
             (glm.muls
                (glm.refract (Ray.direction (PathSegment.ray pathSegment))
                             (refractNormal pathSegment normal)
                             (niOvernt pathSegment normal m))
                (1 / 100)))
          (glm.normalize
             (glm.refract (Ray.direction (PathSegment.ray pathSegment))
                          (refractNormal pathSegment normal)
                          (niOvernt pathSegment normal m))))
       (glm.mul (PathSegment.color pathSegment)
                (Specular.color (Material.specular m)))
       (PathSegment.remainingBounces pathSegment - 1)%Z,
     snd (u01 rng)).
Proof.
  intros Hr Hf Hd Hu. unfold scatterRay. flags.
  rewrite (proj2 (Rgtb_true _ _) Hd). unfold u01; cbv beta iota zeta.
  rewrite (proj2 (Rgtb_false _ _) Hu). reflexivity.
Qed.

Lemma scatterRay_dielectric_tir :
  Material.hasReflective m = 1 -> Material.hasRefractive m = 1 ->
  discriminant pathSegment normal m <= 0 ->
  scatterRay pathSegment intersect normal m rng
  = (PathSegment.mk
       (Ray.mk
          (glm.add intersect
             (glm.muls (refractNormal pathSegment normal) (1 / 100)))
          (glm.reflect (Ray.direction (PathSegment.ray pathSegment))
                       (refractNormal pathSegment normal)))
       (glm.mkvec3 0 0 0)
       (PathSegment.remainingBounces pathSegment - 1)%Z,
     rng).
Proof.
  intros Hr Hf Hd. unfold scatterRay. flags.
  rewrite (proj2 (Rgtb_false _ _) Hd). reflexivity.
Qed.

Lemma scatterRay_no_branch :
  ~ (Material.hasReflective m = 0 /\ Material.hasRefractive m = 0) ->
  ~ (Material.hasReflective m = 1 /\ Material.hasRefractive m = 0) ->
  ~ (Material.hasReflective m = 1 /\ Material.hasRefractive m = 1) ->
  scatterRay pathSegment intersect normal m rng = (pathSegment, rng).
Proof.
  intros H00 H10 H11. unfold scatterRay.
  destruct (Reqb (Material.hasReflective m) 0) eqn:R0;
  destruct (Reqb (Material.hasRefractive m) 0) eqn:F0;
  destruct (Reqb (Material.hasReflective m) 1) eqn:R1;
  destruct (Reqb (Material.hasRefractive m) 1) eqn:F1;
  simpl; try reflexivity;
  repeat match goal with
  | H : Reqb _ _ = true |- _ => apply Reqb_true in H
  end; tauto.
Qed.

End Branches.

(** ** Shared facts about the branches *)

Lemma length_unit_dot (v : glm.vec3) : glm.length v = 1 -> glm.dot v v = 1.
Proof.
  unfold glm.length; intros H.
  pose proof (sqrt_sqrt _ (dot_self_nonneg v)) as Hs.
  rewrite H in Hs. lra.
Qed.

Lemma dot_unit_length (v : glm.vec3) : glm.dot v v = 1 -> glm.length v = 1.
Proof. unfold glm.length; intros ->. apply sqrt_1. Qed.

(** The importance-sampling ratio of the diffuse branch cancels to the
    albedo. *)
Lemma diffuse_weight (albedo : glm.vec3) (nDotr : R) :
  nDotr / PI <> 0 ->
  glm.divs (glm.muls (glm.divs albedo PI) nDotr) (nDotr / PI) = albedo.
Proof.
  intros Hp.
  assert (Hn : nDotr <> 0) by (intros ->; apply Hp; unfold Rdiv; ring).
  pose proof PI_neq0 as Hpi.
  destruct albedo as [a b c]; unfold glm.divs, glm.muls; simpl.
  f_equal; field; auto.
Qed.

Lemma nonneg_mul (a b : glm.vec3) :
  nonneg a -> nonneg b -> nonneg (glm.mul a b).
Proof.
  unfold nonneg, glm.mul; simpl; intros (?&?&?) (?&?&?).
  repeat split; apply Rmult_le_pos; assumption.
Qed.

Lemma nonneg_zero : nonneg (glm.mkvec3 0 0 0).
Proof. unfold nonneg; simpl; lra. Qed.

(** The working normal is the normal, flipped when the ray leaves. *)
Lemma refractNormal_flipped (pathSegment : PathSegment.t) (normal : glm.vec3) :
  glm.dot (Ray.direction (PathSegment.ray pathSegment)) normal > 0 ->
  refractNormal pathSegment normal = glm.smul (-1) normal.
Proof.
  intros H. unfold refractNormal. rewrite (proj2 (Rgtb_true _ _) H).
  reflexivity.
Qed.

Lemma refractNormal_kept (pathSegment : PathSegment.t) (normal : glm.vec3) :
  ~ glm.dot (Ray.direction (PathSegment.ray pathSegment)) normal > 0 ->
  refractNormal pathSegment normal = normal.
Proof.
  intros H. unfold refractNormal.
  rewrite (proj2 (Rgtb_false _ _)) by lra. reflexivity.
Qed.

Lemma discriminant_formula (pathSegment : PathSegment.t) (normal : glm.vec3)
  (m : Material.t) :
  discriminant pathSegment normal m
  = 1 - niOvernt pathSegment normal m ^ 2
        * (1 - cosine pathSegment normal ^ 2).
Proof. unfold discriminant. ring. Qed.

Lemma reflectProb_formula (pathSegment : PathSegment.t) (normal : glm.vec3)
  (m : Material.t) :
  reflectProb pathSegment normal m
  = ((1 - niOvernt pathSegment normal m)
     / (1 + niOvernt pathSegment normal m)) ^ 2
    + (1 - ((1 - niOvernt pathSegment normal m)
            / (1 + niOvernt pathSegment normal m)) ^ 2)
      * (1 - Rmax 0 (cosine pathSegment normal)) ^ 5.
Proof. unfold reflectProb, powf5. cbv zeta. ring. Qed.

(** * The claims *)

(** C6.  For every unit normal [n] and every two uniforms [u1], [u2] of
    [0,1) delivered by the engine, the direction [d] returned by
    [calculateRandomDirectionInHemisphere] has [dot(d, n) = sqrt(u1)], hence
    [dot(d, n) >= 0], and [|d| = 1]; the call consumes these two draws. *)
Theorem hemisphere_sample_unit_upper (normal : glm.vec3) (rng : engine) :
  glm.length normal = 1 ->
  0 <= rng 0%nat < 1 ->
  0 <= rng 1%nat < 1 ->
  let d := fst (calculateRandomDirectionInHemisphere normal rng) in
  glm.dot d normal = sqrt (rng 0%nat)
  /\ glm.dot d normal >= 0
  /\ glm.length d = 1
  /\ snd (calculateRandomDirectionInHemisphere normal rng)
     = snd (u01 (snd (u01 rng))).
Proof.
  intros Hn Hu1 Hu2 d. apply length_unit_dot in Hn.
  assert (Hd : glm.dot d normal = sqrt (rng 0%nat))
    by (apply hemisphere_dot_normal; exact Hn).
  repeat split.
  - exact Hd.
  - rewrite Hd. apply Rle_ge, sqrt_pos.
  - apply dot_unit_length, hemisphere_dot_self; [exact Hn | lra].
Qed.

Lemma hemisphere_sample_unit_upper_witness :
  let d := fst (calculateRandomDirectionInHemisphere
                  (glm.mkvec3 0 0 1) (fun _ => 1 / 4)) in
  glm.dot d (glm.mkvec3 0 0 1) = sqrt (1 / 4)
  /\ glm.dot d (glm.mkvec3 0 0 1) >= 0
  /\ glm.length d = 1
  /\ snd (calculateRandomDirectionInHemisphere
            (glm.mkvec3 0 0 1) (fun _ => 1 / 4))
     = snd (u01 (snd (u01 (fun _ => 1 / 4)))).
Proof.
  apply (hemisphere_sample_unit_upper (glm.mkvec3 0 0 1) (fun _ => 1 / 4)).
  - apply dot_unit_length. unfold glm.dot; simpl. ring.
  - lra.
  - lra.
Defined.

(** C7.  [isTerminated] returns true exactly when [remainingBounces > 0]:
    true for 1, false for 0 and for every negative value; the call leaves
    the segment as it was. *)
Theorem isTerminated_iff_positive (pathSegment : PathSegment.t) :
  (isTerminated pathSegment = true
   <-> (PathSegment.remainingBounces pathSegment > 0)%Z)
  /\ (forall r c, isTerminated (PathSegment.mk r c 1) = true)
  /\ (forall r c, isTerminated (PathSegment.mk r c 0) = false)
  /\ (forall r c p, isTerminated (PathSegment.mk r c (Z.neg p)) = false)
  /\ snd (isTerminated_call pathSegment) = pathSegment
  /\ fst (isTerminated_call pathSegment) = isTerminated pathSegment.
Proof.
  unfold isTerminated. repeat split; try reflexivity.
  - intros H. apply Z.ltb_lt in H. lia.
  - intros H. apply Z.ltb_lt. lia.
Qed.

(** C4.  In the mirror branch ([hasReflective == 1], [hasRefractive == 0])
    the new direction is the reflection of the incoming direction about the
    normal (so [(1,-1,0)/sqrt 2] about [(0,1,0)] gives [(1,1,0)/sqrt 2]), the
    colour is multiplied channel by channel by [specular.color] and by
    nothing else, [remainingBounces] goes down by exactly one, the new
    origin is [intersect + normal * 1e-4], and no random number is drawn. *)
Theorem mirror_branch (pathSegment : PathSegment.t)
  (intersect normal : glm.vec3) (m : Material.t) (rng : engine) :
  Material.hasReflective m = 1 ->
  Material.hasRefractive m = 0 ->
  let incoming := Ray.direction (PathSegment.ray pathSegment) in
  let after := fst (scatterRay pathSegment intersect normal m rng) in
  Ray.direction (PathSegment.ray after) = glm.reflect incoming normal
  /\ glm.reflect incoming normal
     = glm.sub incoming (glm.smul (2 * glm.dot normal incoming) normal)
  /\ (incoming = glm.divs (glm.mkvec3 1 (-1) 0) (sqrt 2) ->
      normal = glm.mkvec3 0 1 0 ->
      Ray.direction (PathSegment.ray after)
      = glm.divs (glm.mkvec3 1 1 0) (sqrt 2))
  /\ PathSegment.color after
     = glm.mul (PathSegment.color pathSegment)
               (Specular.color (Material.specular m))
  /\ PathSegment.remainingBounces after
     = (PathSegment.remainingBounces pathSegment - 1)%Z
  /\ Ray.origin (PathSegment.ray after)
     = glm.add intersect (glm.muls normal (1 / 10000))
  /\ snd (scatterRay pathSegment intersect normal m rng) = rng.
Proof.
  intros Hr Hf incoming after. subst after.
  rewrite (scatterRay_mirror _ intersect normal m rng Hr Hf). simpl.
  fold incoming.
  assert (Hx : glm.reflect incoming normal
               = glm.sub incoming
                   (glm.smul (2 * glm.dot normal incoming) normal))
    by (apply vec3_eq; simpl; ring).
  repeat split; try assumption.
  intros Hi Hn. rewrite Hx, Hi, Hn.
  apply vec3_eq; unfold glm.dot; simpl; unfold Rdiv; ring.
Qed.

Lemma mirror_branch_witness :
  let after :=
    fst (scatterRay
           (sample_segment (glm.divs (glm.mkvec3 1 (-1) 0) (sqrt 2)))
           (glm.mkvec3 0 0 0) (glm.mkvec3 0 1 0) (sample_material 1 0)
           (constant_engine (1 / 2))) in
  Ray.direction (PathSegment.ray after)
  = glm.divs (glm.mkvec3 1 1 0) (sqrt 2)
  /\ PathSegment.remainingBounces after = 4%Z.
Proof.
  destruct (mirror_branch
              (sample_segment (glm.divs (glm.mkvec3 1 (-1) 0) (sqrt 2)))
              (glm.mkvec3 0 0 0) (glm.mkvec3 0 1 0) (sample_material 1 0)
              (constant_engine (1 / 2)) eq_refl eq_refl)
    as (_ & _ & Hd & _ & Hb & _).
  split.
  - apply Hd; reflexivity.
  - exact Hb.
Defined.

(** For a unit normal the density of the diffuse sample is [sqrt(u1) / pi]:
    it vanishes exactly when the first draw is 0. *)
Lemma diffuse_pdf_unit (normal : glm.vec3) (rng : engine) :
  glm.dot normal normal = 1 ->
  diffuse_pdf normal rng = sqrt (rng 0%nat) / PI.
Proof.
  intros Hn. unfold diffuse_pdf, diffuse_nDotr.
  rewrite dot_comm, (hemisphere_dot_normal normal Hn).
  rewrite Rabs_pos_eq by apply sqrt_pos. reflexivity.
Qed.

Lemma sample_pdf_zero :
  diffuse_pdf (glm.mkvec3 0 0 1) (constant_engine 0) = 0.
Proof.
  rewrite diffuse_pdf_unit by (unfold glm.dot; simpl; ring).
  unfold constant_engine. rewrite sqrt_0. unfold Rdiv. ring.
Qed.

Lemma sample_pdf_nonzero :
  diffuse_pdf (glm.mkvec3 0 0 1) (constant_engine (1 / 4)) <> 0.
Proof.
  rewrite diffuse_pdf_unit by (unfold glm.dot; simpl; ring).
  unfold constant_engine.
  assert (0 < sqrt (1 / 4)) by (apply sqrt_lt_R0; lra).
  assert (0 < sqrt (1 / 4) / PI)
    by (apply Rdiv_lt_0_compat; [lra | apply PI_RGT_0]).
  lra.
Qed.

(** C2.  In the diffuse branch, when [pdf = nDotR / pi] is not 0, the
    factor [(material.color / pi) * nDotR / pdf] is [material.color], so the
    colour after the call is the colour before multiplied channel by channel
    by [material.color]. *)
Theorem diffuse_weight_is_albedo (pathSegment : PathSegment.t)
  (intersect normal : glm.vec3) (m : Material.t) (rng : engine) :
  Material.hasReflective m = 0 ->
  Material.hasRefractive m = 0 ->
  let d := fst (calculateRandomDirectionInHemisphere normal rng) in
  let nDotR := Rabs (glm.dot normal d) in
  let pdf := nDotR / PI in
  pdf <> 0 ->
  glm.divs (glm.muls (glm.divs (Material.color m) PI) nDotR) pdf
  = Material.color m
  /\ PathSegment.color (fst (scatterRay pathSegment intersect normal m rng))
     = glm.mul (PathSegment.color pathSegment) (Material.color m).
Proof.
  intros Hr Hf d nDotR pdf Hp.
  pose proof (diffuse_weight (Material.color m) nDotR Hp) as Hw.
  split; [exact Hw|].
  rewrite (scatterRay_diffuse_pos pathSegment intersect normal m rng Hr Hf Hp).
  simpl. unfold diffuse_pdf, diffuse_nDotr.
  fold d. fold nDotR. rewrite Hw. reflexivity.
Qed.

Lemma diffuse_weight_is_albedo_witness :
  PathSegment.color
    (fst (scatterRay (sample_segment (glm.mkvec3 0 0 (-1)))
            (glm.mkvec3 0 0 0) (glm.mkvec3 0 0 1) (sample_material 0 0)
            (constant_engine (1 / 4))))
  = glm.mul (glm.mkvec3 1 1 1) (glm.mkvec3 (4 / 5) (4 / 5) (4 / 5)).
Proof.
  apply (diffuse_weight_is_albedo (sample_segment (glm.mkvec3 0 0 (-1)))
           (glm.mkvec3 0 0 0) (glm.mkvec3 0 0 1) (sample_material 0 0)
           (constant_engine (1 / 4)) eq_refl eq_refl sample_pdf_nonzero).
Defined.

(** C5.  In the diffuse branch, when the sampled direction has
    [pdf = |dot(normal, d)| / pi == 0], the call returns normally with
    [remainingBounces = 0] and [color = (0,0,0)]. *)
Theorem diffuse_degenerate_terminates (pathSegment : PathSegment.t)
  (intersect normal : glm.vec3) (m : Material.t) (rng : engine) :
  Material.hasReflective m = 0 ->
  Material.hasRefractive m = 0 ->
  Rabs (glm.dot normal
          (fst (calculateRandomDirectionInHemisphere normal rng))) / PI = 0 ->
  let after := fst (scatterRay pathSegment intersect normal m rng) in
  PathSegment.remainingBounces after = 0%Z
  /\ PathSegment.color after = glm.mkvec3 0 0 0.
Proof.
  intros Hr Hf Hp after. subst after.
  rewrite (scatterRay_diffuse_zero pathSegment intersect normal m rng Hr Hf Hp).
  split; reflexivity.
Qed.

Lemma diffuse_degenerate_terminates_witness :
  let after :=
    fst (scatterRay (sample_segment (glm.mkvec3 0 0 (-1)))
           (glm.mkvec3 0 0 0) (glm.mkvec3 0 0 1) (sample_material 0 0)
           (constant_engine 0)) in
  PathSegment.remainingBounces after = 0%Z
  /\ PathSegment.color after = glm.mkvec3 0 0 0.
Proof.
  apply (diffuse_degenerate_terminates (sample_segment (glm.mkvec3 0 0 (-1)))
           (glm.mkvec3 0 0 0) (glm.mkvec3 0 0 1) (sample_material 0 0)
           (constant_engine 0) eq_refl eq_refl sample_pdf_zero).
Defined.

(** C9.  In the degenerate diffuse case ([pdf == 0]) the ray of the segment
    is untouched: origin and direction keep their values; only [color] and
    [remainingBounces] are written. *)
Theorem diffuse_degenerate_keeps_ray (pathSegment : PathSegment.t)
  (intersect normal : glm.vec3) (m : Material.t) (rng : engine) :
  Material.hasReflective m = 0 ->
  Material.hasRefractive m = 0 ->
  Rabs (glm.dot normal
          (fst (calculateRandomDirectionInHemisphere normal rng))) / PI = 0 ->
  let after := fst (scatterRay pathSegment intersect normal m rng) in
  PathSegment.ray after = PathSegment.ray pathSegment
  /\ Ray.origin (PathSegment.ray after)
     = Ray.origin (PathSegment.ray pathSegment)
  /\ Ray.direction (PathSegment.ray after)
     = Ray.direction (PathSegment.ray pathSegment).
Proof.
  intros Hr Hf Hp after. subst after.
  rewrite (scatterRay_diffuse_zero pathSegment intersect normal m rng Hr Hf Hp).
  repeat split.
Qed.

Lemma diffuse_degenerate_keeps_ray_witness :
  let after :=
    fst (scatterRay (sample_segment (glm.mkvec3 0 0 (-1)))
           (glm.mkvec3 0 0 0) (glm.mkvec3 0 0 1) (sample_material 0 0)
           (constant_engine 0)) in
  PathSegment.ray after
  = Ray.mk (glm.mkvec3 0 0 0) (glm.mkvec3 0 0 (-1)).
Proof.
  apply (diffuse_degenerate_keeps_ray (sample_segment (glm.mkvec3 0 0 (-1)))
           (glm.mkvec3 0 0 0) (glm.mkvec3 0 0 1) (sample_material 0 0)
           (constant_engine 0) eq_refl eq_refl sample_pdf_zero).
Defined.

(** C1.  In the dielectric branch with a positive discriminant,
    [reflectProb] is Schlick's [r0 + (1-r0) * (1 - max(0, cosine))^5] with
    [r0 = ((1-eta)/(1+eta))^2]; exactly one uniform [u] of [0,1) is drawn;
    the ray is reflected about the working normal iff
    [u > reflectProb / 1.5] and refracted otherwise; either way the colour is
    multiplied channel by channel by [specular.color], with no division by a
    probability, and [remainingBounces] goes down by exactly one. *)
Theorem dielectric_split (pathSegment : PathSegment.t)
  (intersect normal : glm.vec3) (m : Material.t) (rng : engine) :
  Material.hasReflective m = 1 ->
  Material.hasRefractive m = 1 ->
  uniform01 rng ->
  let incoming := Ray.direction (PathSegment.ray pathSegment) in
  let workingNormal := refractNormal pathSegment normal in
  let eta := niOvernt pathSegment normal m in
  let cosine := glm.dot incoming workingNormal in
  let disc := 1 - eta ^ 2 * (1 - cosine ^ 2) in
  let r0 := ((1 - eta) / (1 + eta)) ^ 2 in
  let schlick := r0 + (1 - r0) * (1 - Rmax 0 cosine) ^ 5 in
  let u := fst (u01 rng) in
  let after := fst (scatterRay pathSegment intersect normal m rng) in
  disc > 0 ->
  reflectProb pathSegment normal m = schlick
  /\ 0 <= u < 1
  /\ snd (scatterRay pathSegment intersect normal m rng) = snd (u01 rng)
  /\ (u > schlick / (3 / 2) ->
      PathSegment.ray after
      = Ray.mk (glm.add intersect (glm.muls workingNormal (1 / 100)))
               (glm.reflect incoming workingNormal))
  /\ (~ u > schlick / (3 / 2) ->
      PathSegment.ray after
      = Ray.mk (glm.add intersect
                  (glm.muls (glm.refract incoming workingNormal eta)
                            (1 / 100)))
               (glm.normalize (glm.refract incoming workingNormal eta)))
  /\ PathSegment.color after
     = glm.mul (PathSegment.color pathSegment)
               (Specular.color (Material.specular m))
  /\ PathSegment.remainingBounces after
     = (PathSegment.remainingBounces pathSegment - 1)%Z.
Proof.
  intros Hr Hf Hrng incoming workingNormal eta cosine0 disc r0 schlick u
    after Hd.
  assert (Hdisc : discriminant pathSegment normal m > 0)
    by (rewrite discriminant_formula; exact Hd).
  assert (Hs : reflectProb pathSegment normal m = schlick)
    by apply reflectProb_formula.
  split; [exact Hs|]. split; [apply Hrng|].
  subst after. rewrite <- Hs.
  destruct (Rgt_dec u (reflectProb pathSegment normal m / (3 / 2)))
    as [Hu|Hu].
  - rewrite (scatterRay_dielectric_reflect pathSegment intersect normal m
               rng Hr Hf Hdisc Hu).
    simpl. repeat split; try reflexivity. intros Hn. contradiction.
  - assert (Hu' : rng 0%nat
                  <= reflectProb pathSegment normal m / (3 / 2))
      by (apply Rnot_gt_le; exact Hu).
    rewrite (scatterRay_dielectric_refract pathSegment intersect normal m
               rng Hr Hf Hdisc Hu').
    simpl. repeat split; try reflexivity. intros Hn. contradiction.
Qed.

(** The set-up of the dielectric branch on the sample inputs: a ray hitting
    the surface head-on from outside. *)
Lemma sample_head_on_discriminant :
  let p := sample_segment (glm.mkvec3 0 (-1) 0) in
  let n := glm.mkvec3 0 1 0 in
  1 - niOvernt p n (sample_material 1 1) ^ 2
      * (1 - glm.dot (Ray.direction (PathSegment.ray p))
                     (refractNormal p n) ^ 2) > 0.
Proof.
  cbv zeta.
  assert (Hk : ~ glm.dot (Ray.direction (PathSegment.ray
                   (sample_segment (glm.mkvec3 0 (-1) 0))))
                 (glm.mkvec3 0 1 0) > 0)
    by (unfold glm.dot; simpl; lra).
  rewrite (refractNormal_kept _ _ Hk).
  unfold glm.dot; simpl. nra.
Qed.

Lemma dielectric_split_witness :
  let after :=
    fst (scatterRay (sample_segment (glm.mkvec3 0 (-1) 0))
           (glm.mkvec3 0 0 0) (glm.mkvec3 0 1 0) (sample_material 1 1)
           (constant_engine (1 / 2))) in
  PathSegment.color after
  = glm.mul (glm.mkvec3 1 1 1) (glm.mkvec3 1 1 1)
  /\ PathSegment.remainingBounces after = 4%Z.
Proof.
  assert (Hu : uniform01 (constant_engine (1 / 2)))
    by (intros k; unfold constant_engine; lra).
  destruct (dielectric_split (sample_segment (glm.mkvec3 0 (-1) 0))
              (glm.mkvec3 0 0 0) (glm.mkvec3 0 1 0) (sample_material 1 1)
              (constant_engine (1 / 2)) eq_refl eq_refl Hu
              sample_head_on_discriminant)
    as (_ & _ & _ & _ & _ & Hc & Hb).
  split; [exact Hc | exact Hb].
Defined.

(** C3.  In the dielectric branch, when the discriminant
    [1 - eta^2 * (1 - cosine^2)] is at most 0, with the working normal being
    the normal flipped iff [dot(incoming, normal) > 0], the new direction is
    the reflection of the incoming direction about the working normal, the
    colour is [(0,0,0)], [remainingBounces] goes down by one and the new
    origin is the hit point moved along the working normal. *)
Theorem dielectric_total_internal_reflection (pathSegment : PathSegment.t)
  (intersect normal : glm.vec3) (m : Material.t) (rng : engine) :
  Material.hasReflective m = 1 ->
  Material.hasRefractive m = 1 ->
  let incoming := Ray.direction (PathSegment.ray pathSegment) in
  let workingNormal := refractNormal pathSegment normal in
  let eta := niOvernt pathSegment normal m in
  let cosine := glm.dot incoming workingNormal in
  let after := fst (scatterRay pathSegment intersect normal m rng) in
  1 - eta ^ 2 * (1 - cosine ^ 2) <= 0 ->
  (glm.dot incoming normal > 0 -> workingNormal = glm.smul (-1) normal)
  /\ (~ glm.dot incoming normal > 0 -> workingNormal = normal)
  /\ Ray.direction (PathSegment.ray after)
     = glm.reflect incoming workingNormal
  /\ PathSegment.color after = glm.mkvec3 0 0 0
  /\ PathSegment.remainingBounces after
     = (PathSegment.remainingBounces pathSegment - 1)%Z
  /\ Ray.origin (PathSegment.ray after)
     = glm.add intersect (glm.muls workingNormal (1 / 100)).
Proof.
  intros Hr Hf incoming workingNormal eta cosine0 after Hd.
  assert (Hdisc : discriminant pathSegment normal m <= 0)
    by (rewrite discriminant_formula; exact Hd).
  split; [apply refractNormal_flipped|].
  split; [apply refractNormal_kept|].
  subst after.
  rewrite (scatterRay_dielectric_tir pathSegment intersect normal m rng
             Hr Hf Hdisc).
  repeat split.
Qed.

(** A ray leaving glass at a grazing angle: the discriminant is negative. *)
Lemma sample_grazing_discriminant :
  let p := sample_segment (glm.mkvec3 (4 / 5) (3 / 5) 0) in
  let n := glm.mkvec3 0 1 0 in
  1 - niOvernt p n (sample_material 1 1) ^ 2
      * (1 - glm.dot (Ray.direction (PathSegment.ray p))
                     (refractNormal p n) ^ 2) <= 0.
Proof.
  cbv zeta.
  assert (Hk : glm.dot (Ray.direction (PathSegment.ray
                 (sample_segment (glm.mkvec3 (4 / 5) (3 / 5) 0))))
               (glm.mkvec3 0 1 0) > 0)
    by (unfold glm.dot; simpl; lra).
  rewrite (refractNormal_flipped _ _ Hk).
  unfold niOvernt. rewrite (proj2 (Rgtb_true _ _) Hk).
  unfold glm.dot; simpl. nra.
Qed.

Lemma dielectric_total_internal_reflection_witness :
  let after :=
    fst (scatterRay (sample_segment (glm.mkvec3 (4 / 5) (3 / 5) 0))
           (glm.mkvec3 0 0 0) (glm.mkvec3 0 1 0) (sample_material 1 1)
           (constant_engine (1 / 2))) in
  PathSegment.color after = glm.mkvec3 0 0 0
  /\ PathSegment.remainingBounces after = 4%Z.
Proof.
  destruct (dielectric_total_internal_reflection
              (sample_segment (glm.mkvec3 (4 / 5) (3 / 5) 0))
              (glm.mkvec3 0 0 0) (glm.mkvec3 0 1 0) (sample_material 1 1)
              (constant_engine (1 / 2)) eq_refl eq_refl
              sample_grazing_discriminant)
    as (_ & _ & _ & Hc & Hb & _).
  split; [exact Hc | exact Hb].
Defined.

(** C8.  When the pair [(hasReflective, hasRefractive)] is none of [(0,0)],
    [(1,0)], [(1,1)] (as for [(0,1)] or a fractional flag) [scatterRay]
    changes nothing: ray, colour and [remainingBounces] of the segment are
    as before, and the engine is not drawn from. *)
Theorem unmatched_flags_no_mutation (pathSegment : PathSegment.t)
  (intersect normal : glm.vec3) (m : Material.t) (rng : engine) :
  ~ (Material.hasReflective m = 0 /\ Material.hasRefractive m = 0) ->
  ~ (Material.hasReflective m = 1 /\ Material.hasRefractive m = 0) ->
  ~ (Material.hasReflective m = 1 /\ Material.hasRefractive m = 1) ->
  let after := fst (scatterRay pathSegment intersect normal m rng) in
  after = pathSegment
  /\ PathSegment.ray after = PathSegment.ray pathSegment
  /\ PathSegment.color after = PathSegment.color pathSegment
  /\ PathSegment.remainingBounces after
     = PathSegment.remainingBounces pathSegment
  /\ snd (scatterRay pathSegment intersect normal m rng) = rng.
Proof.
  intros H00 H10 H11 after. subst after.
  rewrite (scatterRay_no_branch pathSegment intersect normal m rng
             H00 H10 H11).
  repeat split.
Qed.

Lemma sample_flags_unmatched (a b c d : R) :
  a <> c \/ b <> d ->
  ~ (Material.hasReflective (sample_material a b) = c
     /\ Material.hasRefractive (sample_material a b) = d).
Proof. simpl. intros [H|H] [A B]; contradiction. Qed.

Lemma unmatched_flags_no_mutation_witness :
  fst (scatterRay (sample_segment (glm.mkvec3 0 (-1) 0))
         (glm.mkvec3 0 0 0) (glm.mkvec3 0 1 0) (sample_material 0 1)
         (constant_engine (1 / 2)))
  = sample_segment (glm.mkvec3 0 (-1) 0)
  /\ fst (scatterRay (sample_segment (glm.mkvec3 0 (-1) 0))
            (glm.mkvec3 0 0 0) (glm.mkvec3 0 1 0) (sample_material (1 / 2) 0)
            (constant_engine (1 / 2)))
     = sample_segment (glm.mkvec3 0 (-1) 0).
Proof.
  split.
  - apply (unmatched_flags_no_mutation (sample_segment (glm.mkvec3 0 (-1) 0))
             (glm.mkvec3 0 0 0) (glm.mkvec3 0 1 0) (sample_material 0 1)
             (constant_engine (1 / 2)));
      apply sample_flags_unmatched; (left; lra) || (right; lra).
  - apply (unmatched_flags_no_mutation (sample_segment (glm.mkvec3 0 (-1) 0))
             (glm.mkvec3 0 0 0) (glm.mkvec3 0 1 0)
             (sample_material (1 / 2) 0) (constant_engine (1 / 2)));
      apply sample_flags_unmatched; (left; lra) || (right; lra).
Defined.

(** C10.  [scatterRay] keeps the throughput non-negative: whenever every
    channel of [segment.color], [material.color] and
    [material.specular.color] is at least 0 before the call, every channel
    of [segment.color] is at least 0 after it, in every branch. *)
Theorem scatterRay_preserves_nonneg (pathSegment : PathSegment.t)
  (intersect normal : glm.vec3) (m : Material.t) (rng : engine) :
  nonneg (PathSegment.color pathSegment) ->
  nonneg (Material.color m) ->
  nonneg (Specular.color (Material.specular m)) ->
  nonneg (PathSegment.color
            (fst (scatterRay pathSegment intersect normal m rng))).
Proof.
  intros Hc Hm Hs.
  destruct (Req_dec_T (Material.hasReflective m) 0) as [R0|R0];
  destruct (Req_dec_T (Material.hasRefractive m) 0) as [F0|F0].
  - (* diffuse *)
    destruct (Req_dec_T (diffuse_pdf normal rng) 0) as [Hp|Hp].
    + rewrite (scatterRay_diffuse_zero pathSegment intersect normal m rng
                 R0 F0 Hp).
      apply nonneg_zero.
    + rewrite (scatterRay_diffuse_pos pathSegment intersect normal m rng
                 R0 F0 Hp).
      simpl. unfold diffuse_pdf in *. rewrite (diffuse_weight _ _ Hp).
      apply nonneg_mul; assumption.
  - rewrite scatterRay_no_branch; [exact Hc| | |]; intros [A B]; lra.
  - destruct (Req_dec_T (Material.hasReflective m) 1) as [R1|R1].
    + rewrite (scatterRay_mirror pathSegment intersect normal m rng R1 F0).
      apply nonneg_mul; assumption.
    + rewrite scatterRay_no_branch; [exact Hc| | |]; intros [A B]; lra.
  - destruct (Req_dec_T (Material.hasReflective m) 1) as [R1|R1];
    destruct (Req_dec_T (Material.hasRefractive m) 1) as [F1|F1];
    try (rewrite scatterRay_no_branch; [exact Hc| | |]; intros [A B]; lra).
    destruct (Rgt_dec (discriminant pathSegment normal m) 0) as [Hd|Hd].
    + destruct (Rgt_dec (rng 0%nat)
                  (reflectProb pathSegment normal m / (3 / 2))) as [Hu|Hu].
      * rewrite (scatterRay_dielectric_reflect pathSegment intersect normal
                   m rng R1 F1 Hd Hu).
        apply nonneg_mul; assumption.
      * apply Rnot_gt_le in Hu.
        rewrite (scatterRay_dielectric_refract pathSegment intersect normal
                   m rng R1 F1 Hd Hu).
        apply nonneg_mul; assumption.
    + apply Rnot_gt_le in Hd.
      rewrite (scatterRay_dielectric_tir pathSegment intersect normal m rng
                 R1 F1 Hd).
      apply nonneg_zero.
Qed.

Lemma sample_colours_nonneg :
  nonneg (glm.mkvec3 1 1 1) /\ nonneg (glm.mkvec3 (4 / 5) (4 / 5) (4 / 5)).
Proof. unfold nonneg; simpl; lra. Qed.

Lemma scatterRay_preserves_nonneg_witness :
  nonneg (PathSegment.color
            (fst (scatterRay (sample_segment (glm.mkvec3 0 0 (-1)))
                    (glm.mkvec3 0 0 0) (glm.mkvec3 0 0 1)
                    (sample_material 0 0) (constant_engine (1 / 4))))).
Proof.
  apply (scatterRay_preserves_nonneg (sample_segment (glm.mkvec3 0 0 (-1)))
           (glm.mkvec3 0 0 0) (glm.mkvec3 0 0 1) (sample_material 0 0)
           (constant_engine (1 / 4))).
  - exact (proj1 sample_colours_nonneg).
  - exact (proj2 sample_colours_nonneg).
  - exact (proj1 sample_colours_nonneg).
Defined.

(** * Further properties of the code *)

(** ** Case analysis of scatterRay *)

(** Every call of [scatterRay] ends in one of seven ways; a property of the
    result follows from the property of each outcome under the tests that
    lead to it. *)
Lemma scatterRay_elim (pathSegment : PathSegment.t)
  (intersect normal : glm.vec3) (m : Material.t) (rng : engine)
  (P : PathSegment.t * engine -> Prop) :
  (Material.hasReflective m = 0 -> Material.hasRefractive m = 0 ->
   diffuse_pdf normal rng = 0 ->
   P (PathSegment.mk (PathSegment.ray pathSegment) (glm.mkvec3 0 0 0) 0%Z,
      snd (calculateRandomDirectionInHemisphere normal rng))) ->
  (Material.hasReflective m = 0 -> Material.hasRefractive m = 0 ->
   diffuse_pdf normal rng <> 0 ->
   P (PathSegment.mk
        (Ray.mk (glm.add intersect (glm.muls normal (1 / 10000)))
                (fst (calculateRandomDirectionInHemisphere normal rng)))
        (glm.mul (PathSegment.color pathSegment) (Material.color m))
        (PathSegment.remainingBounces pathSegment - 1)%Z,
      snd (calculateRandomDirectionInHemisphere normal rng))) ->
  (Material.hasReflective m = 1 -> Material.hasRefractive m = 0 ->
   P (PathSegment.mk
        (Ray.mk (glm.add intersect (glm.muls normal (1 / 10000)))
                (glm.reflect (Ray.direction (PathSegment.ray pathSegment))
                             normal))
        (glm.mul (PathSegment.color pathSegment)
                 (Specular.color (Material.specular m)))
        (PathSegment.remainingBounces pathSegment - 1)%Z,
      rng)) ->
  (Material.hasReflective m = 1 -> Material.hasRefractive m = 1 ->
   discriminant pathSegment normal m > 0 ->
   rng 0%nat > reflectProb pathSegment normal m / (3 / 2) ->
   P (PathSegment.mk
        (Ray.mk
           (glm.add intersect
              (glm.muls (refractNormal pathSegment normal) (1 / 100)))
           (glm.reflect (Ray.direction (PathSegment.ray pathSegment))
                        (refractNormal pathSegment normal)))
        (glm.mul (PathSegment.color pathSegment)
                 (Specular.color (Material.specular m)))
        (PathSegment.remainingBounces pathSegment - 1)%Z,
      snd (u01 rng))) ->
  (Material.hasReflective m = 1 -> Material.hasRefractive m = 1 ->
   discriminant pathSegment normal m > 0 ->
   rng 0%nat <= reflectProb pathSegment normal m / (3 / 2) ->
   P (PathSegment.mk
        (Ray.mk
           (glm.add intersect
              (glm.muls
                 (glm.refract (Ray.direction (PathSegment.ray pathSegment))
                              (refractNormal pathSegment normal)
                              (niOvernt pathSegment normal m))
                 (1 / 100)))
           (glm.normalize
              (glm.refract (Ray.direction (PathSegment.ray pathSegment))
                           (refractNormal pathSegment normal)
                           (niOvernt pathSegment normal m))))
        (glm.mul (PathSegment.color pathSegment)
                 (Specular.color (Material.specular m)))
        (PathSegment.remainingBounces pathSegment - 1)%Z,
      snd (u01 rng))) ->
  (Material.hasReflective m = 1 -> Material.hasRefractive m = 1 ->
   discriminant pathSegment normal m <= 0 ->
   P (PathSegment.mk
        (Ray.mk
           (glm.add intersect
              (glm.muls (refractNormal pathSegment normal) (1 / 100)))
           (glm.reflect (Ray.direction (PathSegment.ray pathSegment))
                        (refractNormal pathSegment normal)))
        (glm.mkvec3 0 0 0)
        (PathSegment.remainingBounces pathSegment - 1)%Z,
      rng)) ->
  (~ matched_flags m -> P (pathSegment, rng)) ->
  P (scatterRay pathSegment intersect normal m rng).
Proof.
  intros Hzero Hpos Hmir Hrefl Hrefr Htir Hnone.
  assert (Hno : forall P0 : Prop,
             (matched_flags m -> P0) ->
             (~ matched_flags m -> P0) -> P0).
  { intros P0 Hy Hn.
    destruct (Req_dec_T (Material.hasReflective m) 0);
    destruct (Req_dec_T (Material.hasRefractive m) 0);
    destruct (Req_dec_T (Material.hasReflective m) 1);
    destruct (Req_dec_T (Material.hasRefractive m) 1);
    try (apply Hy; unfold matched_flags; tauto);
    apply Hn; unfold matched_flags; intros [[A B]|[[A B]|[A B]]];
    contradiction. }
  apply (Hno (P (scatterRay pathSegment intersect normal m rng))).
  - intros [[R F]|[[R F]|[R F]]].
    + destruct (Req_dec_T (diffuse_pdf normal rng) 0) as [Hp|Hp].
      * rewrite (scatterRay_diffuse_zero pathSegment intersect normal m rng
                   R F Hp).
        apply Hzero; assumption.
      * rewrite (scatterRay_diffuse_pos pathSegment intersect normal m rng
                   R F Hp).
        unfold diffuse_pdf in *. rewrite (diffuse_weight _ _ Hp).
        apply Hpos; assumption.
    + rewrite (scatterRay_mirror pathSegment intersect normal m rng R F).
      apply Hmir; assumption.
    + destruct (Rgt_dec (discriminant pathSegment normal m) 0) as [Hd|Hd].
      * destruct (Rgt_dec (rng 0%nat)
                    (reflectProb pathSegment normal m / (3 / 2))) as [Hu|Hu].
        -- rewrite (scatterRay_dielectric_reflect pathSegment intersect
                      normal m rng R F Hd Hu).
           apply Hrefl; assumption.
        -- apply Rnot_gt_le in Hu.
           rewrite (scatterRay_dielectric_refract pathSegment intersect
                      normal m rng R F Hd Hu).
           apply Hrefr; assumption.
      * apply Rnot_gt_le in Hd.
        rewrite (scatterRay_dielectric_tir pathSegment intersect normal m
                   rng R F Hd).
        apply Htir; assumption.
  - intros Hn. rewrite scatterRay_no_branch.
    + apply Hnone; exact Hn.
    + intros H; apply Hn; unfold matched_flags; tauto.
    + intros H; apply Hn; unfold matched_flags; tauto.
    + intros H; apply Hn; unfold matched_flags; tauto.
Qed.

(** ** The bounce budget *)

(** X1.  A segment that [isTerminated] classifies as finished is never
    revived: if the predicate is false before a call of [scatterRay], it is
    false after it, for every material, normal and engine. *)
Theorem scatterRay_never_revives (pathSegment : PathSegment.t)
  (intersect normal : glm.vec3) (m : Material.t) (rng : engine) :
  isTerminated pathSegment = false ->
  isTerminated (fst (scatterRay pathSegment intersect normal m rng)) = false.
Proof.
  unfold isTerminated. intros H. apply Z.ltb_ge in H.
  apply (scatterRay_elim pathSegment intersect normal m rng
           (fun r => (0 <? PathSegment.remainingBounces (fst r))%Z = false));
    intros; simpl; apply Z.ltb_ge; lia.
Qed.

Lemma scatterRay_never_revives_witness :
  isTerminated
    (fst (scatterRay
            (PathSegment.mk (Ray.mk (glm.mkvec3 0 0 0) (glm.mkvec3 0 (-1) 0))
                            (glm.mkvec3 1 1 1) 0)
            (glm.mkvec3 0 0 0) (glm.mkvec3 0 1 0) (sample_material 1 0)
            (constant_engine (1 / 2)))) = false.
Proof.
  apply (scatterRay_never_revives
           (PathSegment.mk (Ray.mk (glm.mkvec3 0 0 0) (glm.mkvec3 0 (-1) 0))
                           (glm.mkvec3 1 1 1) 0)
           (glm.mkvec3 0 0 0) (glm.mkvec3 0 1 0) (sample_material 1 0)
           (constant_engine (1 / 2))).
  reflexivity.
Defined.

(** X2.  On a live segment and a material whose flags select a branch, a
    call of [scatterRay] strictly lowers [remainingBounces] and never makes
    it negative: a path is finished after at most [remainingBounces]
    calls. *)
Theorem scatterRay_budget_decreases (pathSegment : PathSegment.t)
  (intersect normal : glm.vec3) (m : Material.t) (rng : engine) :
  matched_flags m ->
  isTerminated pathSegment = true ->
  let after := fst (scatterRay pathSegment intersect normal m rng) in
  (0 <= PathSegment.remainingBounces after
   < PathSegment.remainingBounces pathSegment)%Z.
Proof.
  intros Hm H after. subst after.
  unfold isTerminated in H. apply Z.ltb_lt in H.
  apply (scatterRay_elim pathSegment intersect normal m rng
           (fun r => (0 <= PathSegment.remainingBounces (fst r)
                      < PathSegment.remainingBounces pathSegment)%Z));
    intros; simpl; try lia.
  contradiction.
Qed.

Lemma sample_flags_matched :
  matched_flags (sample_material 0 0)
  /\ matched_flags (sample_material 1 0)
  /\ matched_flags (sample_material 1 1).
Proof. unfold matched_flags; simpl; tauto. Qed.

Lemma scatterRay_budget_decreases_witness :
  let after :=
    fst (scatterRay (sample_segment (glm.mkvec3 0 (-1) 0))
           (glm.mkvec3 0 0 0) (glm.mkvec3 0 1 0) (sample_material 1 1)
           (constant_engine (1 / 2))) in
  (0 <= PathSegment.remainingBounces after < 5)%Z.
Proof.
  apply (scatterRay_budget_decreases (sample_segment (glm.mkvec3 0 (-1) 0))
           (glm.mkvec3 0 0 0) (glm.mkvec3 0 1 0) (sample_material 1 1)
           (constant_engine (1 / 2))).
  - exact (proj2 (proj2 sample_flags_matched)).
  - reflexivity.
Defined.

(** ** Throughput and the engine *)

Lemma mul_zero_l (c : glm.vec3) :
  glm.mul (glm.mkvec3 0 0 0) c = glm.mkvec3 0 0 0.
Proof. apply vec3_eq; simpl; ring. Qed.

(** X3.  Black is absorbing: a segment whose colour is [(0,0,0)] has colour
    [(0,0,0)] after [scatterRay], whatever the material and the branch. *)
Theorem scatterRay_black_stays_black (pathSegment : PathSegment.t)
  (intersect normal : glm.vec3) (m : Material.t) (rng : engine) :
  PathSegment.color pathSegment = glm.mkvec3 0 0 0 ->
  PathSegment.color (fst (scatterRay pathSegment intersect normal m rng))
  = glm.mkvec3 0 0 0.
Proof.
  intros H.
  apply (scatterRay_elim pathSegment intersect normal m rng
           (fun r => PathSegment.color (fst r) = glm.mkvec3 0 0 0));
    intros; simpl; try rewrite H; try apply mul_zero_l; reflexivity.
Qed.

Lemma scatterRay_black_stays_black_witness :
  PathSegment.color
    (fst (scatterRay
            (PathSegment.mk (Ray.mk (glm.mkvec3 0 0 0) (glm.mkvec3 0 (-1) 0))
                            (glm.mkvec3 0 0 0) 3)
            (glm.mkvec3 0 0 0) (glm.mkvec3 0 1 0) (sample_material 1 1)
            (constant_engine (1 / 2))))
  = glm.mkvec3 0 0 0.
Proof.
  apply (scatterRay_black_stays_black
           (PathSegment.mk (Ray.mk (glm.mkvec3 0 0 0) (glm.mkvec3 0 (-1) 0))
                           (glm.mkvec3 0 0 0) 3)
           (glm.mkvec3 0 0 0) (glm.mkvec3 0 1 0) (sample_material 1 1)
           (constant_engine (1 / 2))).
  reflexivity.
Defined.

(** X4.  [scatterRay] draws at most two values and only moves forward: the
    engine after the call is the engine before with its first [k] values
    removed, [k <= 2].  The diffuse branch draws exactly two (also when it
    ends the path), the mirror branch and an unmatched material none. *)
Theorem scatterRay_draws (pathSegment : PathSegment.t)
  (intersect normal : glm.vec3) (m : Material.t) (rng : engine) :
  (exists k : nat,
     (k <= 2)%nat
     /\ snd (scatterRay pathSegment intersect normal m rng) = advance k rng)
  /\ (Material.hasReflective m = 0 -> Material.hasRefractive m = 0 ->
      snd (scatterRay pathSegment intersect normal m rng) = advance 2 rng)
  /\ (Material.hasRefractive m = 0 -> Material.hasReflective m <> 0 ->
      snd (scatterRay pathSegment intersect normal m rng) = advance 0 rng).
Proof.
  split; [|split].
  - apply (scatterRay_elim pathSegment intersect normal m rng
             (fun r => exists k : nat,
                         (k <= 2)%nat /\ snd r = advance k rng)); intros.
    1, 2: exists 2%nat; split; [lia | reflexivity].
    1, 4, 5: exists 0%nat; split; [lia | reflexivity].
    1, 2: exists 1%nat; split; [lia | reflexivity].
  - intros R F.
    apply (scatterRay_elim pathSegment intersect normal m rng
             (fun r => snd r = advance 2 rng)); intros;
      try reflexivity; try lra.
    exfalso. apply H. unfold matched_flags. tauto.
  - intros F R.
    apply (scatterRay_elim pathSegment intersect normal m rng
             (fun r => snd r = advance 0 rng)); intros;
      try reflexivity; try lra; contradiction.
Qed.

Lemma scatterRay_draws_witness :
  snd (scatterRay (sample_segment (glm.mkvec3 0 0 (-1)))
         (glm.mkvec3 0 0 0) (glm.mkvec3 0 0 1) (sample_material 0 0)
         (constant_engine (1 / 4)))
  = advance 2 (constant_engine (1 / 4)).
Proof.
  destruct (scatterRay_draws (sample_segment (glm.mkvec3 0 0 (-1)))
              (glm.mkvec3 0 0 0) (glm.mkvec3 0 0 1) (sample_material 0 0)
              (constant_engine (1 / 4))) as (_ & Hd & _).
  apply Hd; reflexivity.
Defined.

(** ** The dielectric branch *)

(** The working normal faces the incoming ray. *)
Lemma cosine_nonpos (pathSegment : PathSegment.t) (normal : glm.vec3) :
  cosine pathSegment normal <= 0.
Proof.
  unfold cosine, refractNormal.
  destruct (Rgtb (glm.dot (Ray.direction (PathSegment.ray pathSegment))
                          normal) 0) eqn:E.
  - apply Rgtb_true in E. revert E. unfold glm.dot, glm.smul; simpl. lra.
  - apply Rgtb_false in E. exact E.
Qed.

Lemma niOvernt_pos (pathSegment : PathSegment.t) (normal : glm.vec3)
  (m : Material.t) :
  0 < Material.indexOfRefraction m -> 0 < niOvernt pathSegment normal m.
Proof.
  intros H. unfold niOvernt.
  destruct (Rgtb _ 0); [exact H|].
  apply Rdiv_lt_0_compat; lra.
Qed.

Lemma reflectProb_eq_1 (pathSegment : PathSegment.t) (normal : glm.vec3)
  (m : Material.t) :
  reflectProb pathSegment normal m = 1.
Proof.
  unfold reflectProb, powf5. cbv zeta.
  rewrite Rmax_left by apply cosine_nonpos. ring.
Qed.

Lemma refractNormal_unit (pathSegment : PathSegment.t) (normal : glm.vec3) :
  glm.dot normal normal = 1 ->
  glm.dot (refractNormal pathSegment normal)
          (refractNormal pathSegment normal) = 1.
Proof.
  intros H. unfold refractNormal. destruct (Rgtb _ 0); [|exact H].
  rewrite <- H. unfold glm.dot, glm.smul; simpl. ring.
Qed.

(** X5.  For a positive index of refraction the ratio [niOvernt] is
    positive, [cosine] is never positive (the working normal faces the
    incoming ray), so [fmax(0, cosine)] is 0 and [reflectProb] is exactly 1
    whatever the ray, the normal and the index. *)
Theorem dielectric_reflectProb_constant (pathSegment : PathSegment.t)
  (normal : glm.vec3) (m : Material.t) :
  0 < Material.indexOfRefraction m ->
  0 < niOvernt pathSegment normal m
  /\ cosine pathSegment normal <= 0
  /\ Rmax 0 (cosine pathSegment normal) = 0
  /\ reflectProb pathSegment normal m = 1.
Proof.
  intros H. split; [apply niOvernt_pos; exact H|].
  split; [apply cosine_nonpos|].
  split; [apply Rmax_left, cosine_nonpos | apply reflectProb_eq_1].
Qed.

Lemma sample_index_pos (a b : R) :
  0 < Material.indexOfRefraction (sample_material a b).
Proof. simpl. lra. Qed.

Lemma dielectric_reflectProb_constant_witness :
  reflectProb (sample_segment (glm.mkvec3 (4 / 5) (3 / 5) 0))
              (glm.mkvec3 0 1 0) (sample_material 1 1) = 1.
Proof.
  apply (dielectric_reflectProb_constant
           (sample_segment (glm.mkvec3 (4 / 5) (3 / 5) 0))
           (glm.mkvec3 0 1 0) (sample_material 1 1)
           (sample_index_pos 1 1)).
Defined.

(** X6.  In the dielectric branch with a positive index of refraction and
    a positive discriminant the choice depends on the draw alone: the ray
    is reflected about the working normal when [u > 2/3] and refracted
    when [u <= 2/3]. *)
Theorem dielectric_split_at_two_thirds (pathSegment : PathSegment.t)
  (intersect normal : glm.vec3) (m : Material.t) (rng : engine) :
  Material.hasReflective m = 1 ->
  Material.hasRefractive m = 1 ->
  0 < Material.indexOfRefraction m ->
  discriminant pathSegment normal m > 0 ->
  let incoming := Ray.direction (PathSegment.ray pathSegment) in
  let workingNormal := refractNormal pathSegment normal in
  let after := fst (scatterRay pathSegment intersect normal m rng) in
  (rng 0%nat > 2 / 3 ->
   Ray.direction (PathSegment.ray after)
   = glm.reflect incoming workingNormal)
  /\ (rng 0%nat <= 2 / 3 ->
      Ray.direction (PathSegment.ray after)
      = glm.normalize
          (glm.refract incoming workingNormal
                       (niOvernt pathSegment normal m))).
Proof.
  intros R F Hi Hd incoming workingNormal after. subst after.
  assert (E : reflectProb pathSegment normal m / (3 / 2) = 2 / 3)
    by (rewrite reflectProb_eq_1; field).
  split; intros Hu.
  - rewrite scatterRay_dielectric_reflect; auto. rewrite E. exact Hu.
  - rewrite scatterRay_dielectric_refract; auto. rewrite E. exact Hu.
Qed.

Lemma sample_head_on_disc :
  discriminant (sample_segment (glm.mkvec3 0 (-1) 0)) (glm.mkvec3 0 1 0)
               (sample_material 1 1) > 0.
Proof.
  rewrite discriminant_formula. apply sample_head_on_discriminant.
Qed.

Lemma dielectric_split_at_two_thirds_witness :
  Ray.direction
    (PathSegment.ray
       (fst (scatterRay (sample_segment (glm.mkvec3 0 (-1) 0))
               (glm.mkvec3 0 0 0) (glm.mkvec3 0 1 0) (sample_material 1 1)
               (constant_engine (3 / 4)))))
  = glm.reflect (glm.mkvec3 0 (-1) 0)
      (refractNormal (sample_segment (glm.mkvec3 0 (-1) 0))
                     (glm.mkvec3 0 1 0)).
Proof.
  apply (dielectric_split_at_two_thirds
           (sample_segment (glm.mkvec3 0 (-1) 0))
           (glm.mkvec3 0 0 0) (glm.mkvec3 0 1 0) (sample_material 1 1)
           (constant_engine (3 / 4)) eq_refl eq_refl (sample_index_pos 1 1)
           sample_head_on_disc).
  unfold constant_engine. lra.
Defined.

(** X7.  A ray that enters a medium of index greater than 1 (the incoming
    direction does not point along the normal) always has a positive
    discriminant: total internal reflection, and with it the zeroing of the
    colour, happens only to rays that leave; the colour after the call is
    the colour before times [specular.color]. *)
Theorem entering_ray_never_totally_reflected (pathSegment : PathSegment.t)
  (intersect normal : glm.vec3) (m : Material.t) (rng : engine) :
  Material.hasReflective m = 1 ->
  Material.hasRefractive m = 1 ->
  1 < Material.indexOfRefraction m ->
  glm.dot (Ray.direction (PathSegment.ray pathSegment)) normal <= 0 ->
  discriminant pathSegment normal m > 0
  /\ PathSegment.color (fst (scatterRay pathSegment intersect normal m rng))
     = glm.mul (PathSegment.color pathSegment)
               (Specular.color (Material.specular m)).
Proof.
  intros R F Hi Hdot.
  assert (Hd : discriminant pathSegment normal m > 0).
  { unfold discriminant, niOvernt.
    rewrite (proj2 (Rgtb_false _ _) Hdot).
    set (c := cosine pathSegment normal).
    set (i := Material.indexOfRefraction m) in *.
    assert (He : 0 < 1 / i < 1).
    { split; [apply Rdiv_lt_0_compat; lra|].
      apply Rmult_lt_reg_r with i; [lra|]. field_simplify; lra. }
    nra. }
  split; [exact Hd|].
  destruct (Rgt_dec (rng 0%nat)
              (reflectProb pathSegment normal m / (3 / 2))) as [Hu|Hu].
  - rewrite scatterRay_dielectric_reflect; auto.
  - apply Rnot_gt_le in Hu. rewrite scatterRay_dielectric_refract; auto.
Qed.

Lemma entering_ray_never_totally_reflected_witness :
  discriminant (sample_segment (glm.mkvec3 (4 / 5) (- (3 / 5)) 0))
               (glm.mkvec3 0 1 0) (sample_material 1 1) > 0.
Proof.
  apply (entering_ray_never_totally_reflected
           (sample_segment (glm.mkvec3 (4 / 5) (- (3 / 5)) 0))
           (glm.mkvec3 0 0 0) (glm.mkvec3 0 1 0) (sample_material 1 1)
           (constant_engine (1 / 2)) eq_refl eq_refl).
  - simpl. lra.
  - unfold glm.dot; simpl. lra.
Defined.

(** ** Reflection and refraction of unit vectors *)

Section UnitVectors.

Import glm.

Lemma reflect_dot_self (I N : vec3) :
  dot N N = 1 -> dot (reflect I N) (reflect I N) = dot I I.
Proof.
  intros H.
  assert (E : dot (reflect I N) (reflect I N)
              = dot I I + 4 * (dot N I * dot N I) * (dot N N - 1))
    by (unfold reflect, sub, muls, dot; simpl; ring).
  rewrite E, H. ring.
Qed.

Lemma reflect_dot_normal (I N : vec3) :
  dot N N = 1 -> dot (reflect I N) N = - dot I N.
Proof.
  intros H.
  assert (E : dot (reflect I N) N = dot I N * (1 - 2 * dot N N))
    by (unfold reflect, sub, muls, dot; simpl; ring).
  rewrite E, H. ring.
Qed.

Lemma reflect_reflect (I N : vec3) :
  dot N N = 1 -> reflect (reflect I N) N = I.
Proof.
  intros H.
  assert (E : reflect (reflect I N) N
              = sub I (smul (4 * dot N I * (1 - dot N N)) N))
    by (apply vec3_eq; unfold reflect, sub, muls, smul, dot; simpl; ring).
  rewrite E, H. apply vec3_eq; simpl; ring.
Qed.

End UnitVectors.

Section Refraction.

Import glm.

Variables (I N : vec3) (eta : R).

(** When the quantity [refract] tests is not negative, the refracted vector
    is the combination of the incoming direction and the normal. *)
Lemma refract_nonneg :
  0 <= 1 - eta * eta * (1 - dot N I * dot N I) ->
  refract I N eta
  = sub (smul eta I)
        (smul (eta * dot N I
               + sqrt (1 - eta * eta * (1 - dot N I * dot N I))) N).
Proof.
  intros Hk. unfold refract. cbv zeta.
  rewrite (proj2 (Rltb_false _ _) Hk). reflexivity.
Qed.

Lemma refract_dot_self :
  dot I I = 1 -> dot N N = 1 ->
  0 <= 1 - eta * eta * (1 - dot N I * dot N I) ->
  dot (refract I N eta) (refract I N eta) = 1.
Proof.
  intros HI HN Hk. rewrite (refract_nonneg Hk).
  pose proof (sqrt_sqrt _ Hk) as Hs.
  set (c := dot N I) in *.
  set (s := sqrt (1 - eta * eta * (1 - c * c))) in *.
  assert (E : dot (sub (smul eta I) (smul (eta * c + s) N))
                  (sub (smul eta I) (smul (eta * c + s) N))
              = eta * eta * dot I I
                - 2 * eta * (eta * c + s) * dot N I
                + (eta * c + s) * (eta * c + s) * dot N N)
    by (unfold sub, smul, dot; simpl; ring).
  rewrite E, HI, HN. fold c. nra.
Qed.

Lemma refract_dot_normal :
  dot N N = 1 ->
  0 <= 1 - eta * eta * (1 - dot N I * dot N I) ->
  dot (refract I N eta) N
  = - sqrt (1 - eta * eta * (1 - dot N I * dot N I)).
Proof.
  intros HN Hk. rewrite (refract_nonneg Hk).
  set (b := eta * dot N I
            + sqrt (1 - eta * eta * (1 - dot N I * dot N I))).
  assert (E : dot (sub (smul eta I) (smul b N)) N
              = eta * dot N I - b * dot N N)
    by (unfold sub, smul, dot; simpl; ring).
  rewrite E, HN. unfold b. ring.
Qed.

Lemma refract_cross :
  0 <= 1 - eta * eta * (1 - dot N I * dot N I) ->
  cross N (refract I N eta) = smul eta (cross N I).
Proof.
  intros Hk. rewrite (refract_nonneg Hk).
  apply vec3_eq; unfold cross, sub, smul; simpl; ring.
Qed.

End Refraction.

(** The discriminant of [scatterRay] is the quantity [refract] tests. *)
Lemma discriminant_refract (pathSegment : PathSegment.t)
  (normal : glm.vec3) (m : Material.t) :
  discriminant pathSegment normal m
  = 1 - niOvernt pathSegment normal m * niOvernt pathSegment normal m
        * (1 - glm.dot (refractNormal pathSegment normal)
                       (Ray.direction (PathSegment.ray pathSegment))
               * glm.dot (refractNormal pathSegment normal)
                         (Ray.direction (PathSegment.ray pathSegment))).
Proof.
  unfold discriminant, cosine.
  rewrite (dot_comm (Ray.direction (PathSegment.ray pathSegment))).
  reflexivity.
Qed.

(** In the refraction sub-branch, between unit vectors, the refracted
    vector is already a unit vector. *)
Lemma refracted_unit (pathSegment : PathSegment.t)
  (normal : glm.vec3) (m : Material.t) :
  glm.dot normal normal = 1 ->
  glm.dot (Ray.direction (PathSegment.ray pathSegment))
          (Ray.direction (PathSegment.ray pathSegment)) = 1 ->
  discriminant pathSegment normal m > 0 ->
  glm.dot
    (glm.refract (Ray.direction (PathSegment.ray pathSegment))
       (refractNormal pathSegment normal) (niOvernt pathSegment normal m))
    (glm.refract (Ray.direction (PathSegment.ray pathSegment))
       (refractNormal pathSegment normal) (niOvernt pathSegment normal m))
  = 1.
Proof.
  intros Hn Hi Hd. rewrite discriminant_refract in Hd.
  apply refract_dot_self.
  - exact Hi.
  - apply refractNormal_unit; exact Hn.
  - lra.
Qed.

(** ** Invariants of the ray *)

(** X8.  [scatterRay] keeps the direction of the ray a unit vector: with a
    unit normal, a unit incoming direction and a first draw in [0,1], the
    direction after the call has length 1 in every branch. *)
Theorem scatterRay_direction_unit (pathSegment : PathSegment.t)
  (intersect normal : glm.vec3) (m : Material.t) (rng : engine) :
  glm.length normal = 1 ->
  glm.length (Ray.direction (PathSegment.ray pathSegment)) = 1 ->
  0 <= rng 0%nat <= 1 ->
  glm.length
    (Ray.direction
       (PathSegment.ray
          (fst (scatterRay pathSegment intersect normal m rng)))) = 1.
Proof.
  intros Hn Hi Hu.
  apply length_unit_dot in Hn. pose proof (length_unit_dot _ Hi) as Hi'.
  apply (scatterRay_elim pathSegment intersect normal m rng
           (fun r => glm.length
                       (Ray.direction (PathSegment.ray (fst r))) = 1));
    intros; simpl; try exact Hi; apply dot_unit_length.
  - apply hemisphere_dot_self; assumption.
  - rewrite reflect_dot_self; assumption.
  - rewrite reflect_dot_self; [assumption | apply refractNormal_unit, Hn].
  - rewrite normalize_unit; apply refracted_unit; assumption.
  - rewrite reflect_dot_self; [assumption | apply refractNormal_unit, Hn].
Qed.

Lemma sample_unit_vectors :
  glm.length (glm.mkvec3 0 1 0) = 1
  /\ glm.length (glm.mkvec3 0 (-1) 0) = 1
  /\ glm.length (glm.mkvec3 (4 / 5) (3 / 5) 0) = 1
  /\ glm.length (glm.mkvec3 (4 / 5) (- (3 / 5)) 0) = 1.
Proof.
  repeat split; apply dot_unit_length; unfold glm.dot; simpl; field.
Qed.

Lemma scatterRay_direction_unit_witness :
  glm.length
    (Ray.direction
       (PathSegment.ray
          (fst (scatterRay
                  (sample_segment (glm.mkvec3 (4 / 5) (- (3 / 5)) 0))
                  (glm.mkvec3 0 0 0) (glm.mkvec3 0 1 0)
                  (sample_material 1 1) (constant_engine (1 / 2)))))) = 1.
Proof.
  apply (scatterRay_direction_unit
           (sample_segment (glm.mkvec3 (4 / 5) (- (3 / 5)) 0))
           (glm.mkvec3 0 0 0) (glm.mkvec3 0 1 0) (sample_material 1 1)
           (constant_engine (1 / 2))).
  - exact (proj1 sample_unit_vectors).
  - exact (proj2 (proj2 (proj2 sample_unit_vectors))).
  - unfold constant_engine. lra.
Defined.

(** ** The mirror branch *)

(** X9.  Off a unit normal the mirror branch keeps the length of the
    direction and negates its component along the normal: a ray that
    arrives against the normal leaves along it. *)
Theorem mirror_flips_normal_component (pathSegment : PathSegment.t)
  (intersect normal : glm.vec3) (m : Material.t) (rng : engine) :
  Material.hasReflective m = 1 ->
  Material.hasRefractive m = 0 ->
  glm.length normal = 1 ->
  let incoming := Ray.direction (PathSegment.ray pathSegment) in
  let outgoing :=
    Ray.direction
      (PathSegment.ray
         (fst (scatterRay pathSegment intersect normal m rng))) in
  glm.dot outgoing normal = - glm.dot incoming normal
  /\ glm.length outgoing = glm.length incoming.
Proof.
  intros R F Hn incoming outgoing. subst outgoing.
  apply length_unit_dot in Hn.
  rewrite (scatterRay_mirror pathSegment intersect normal m rng R F). simpl.
  split.
  - apply reflect_dot_normal; exact Hn.
  - unfold glm.length. rewrite reflect_dot_self by exact Hn. reflexivity.
Qed.

Lemma mirror_flips_normal_component_witness :
  glm.dot
    (Ray.direction
       (PathSegment.ray
          (fst (scatterRay
                  (sample_segment (glm.mkvec3 (4 / 5) (- (3 / 5)) 0))
                  (glm.mkvec3 0 0 0) (glm.mkvec3 0 1 0)
                  (sample_material 1 0) (constant_engine (1 / 2))))))
    (glm.mkvec3 0 1 0)
  = - glm.dot (glm.mkvec3 (4 / 5) (- (3 / 5)) 0) (glm.mkvec3 0 1 0).
Proof.
  apply (mirror_flips_normal_component
           (sample_segment (glm.mkvec3 (4 / 5) (- (3 / 5)) 0))
           (glm.mkvec3 0 0 0) (glm.mkvec3 0 1 0) (sample_material 1 0)
           (constant_engine (1 / 2)) eq_refl eq_refl
           (proj1 sample_unit_vectors)).
Defined.

(** X10.  Two mirror bounces off the same unit normal, at any two hit
    points, bring the direction back to what it was; the colour has been
    multiplied twice by [specular.color] and two bounces are used. *)
Theorem mirror_twice_restores_direction (pathSegment : PathSegment.t)
  (intersect1 intersect2 normal : glm.vec3) (m : Material.t)
  (rng : engine) :
  Material.hasReflective m = 1 ->
  Material.hasRefractive m = 0 ->
  glm.length normal = 1 ->
  let first := scatterRay pathSegment intersect1 normal m rng in
  let second := scatterRay (fst first) intersect2 normal m (snd first) in
  Ray.direction (PathSegment.ray (fst second))
  = Ray.direction (PathSegment.ray pathSegment)
  /\ PathSegment.color (fst second)
     = glm.mul (glm.mul (PathSegment.color pathSegment)
                        (Specular.color (Material.specular m)))
               (Specular.color (Material.specular m))
  /\ PathSegment.remainingBounces (fst second)
     = (PathSegment.remainingBounces pathSegment - 2)%Z.
Proof.
  intros R F Hn first second. subst second first.
  apply length_unit_dot in Hn.
  rewrite (scatterRay_mirror pathSegment intersect1 normal m rng R F).
  rewrite scatterRay_mirror by assumption. simpl.
  repeat split.
  - apply reflect_reflect; exact Hn.
  - lia.
Qed.

Lemma mirror_twice_restores_direction_witness :
  Ray.direction
    (PathSegment.ray
       (fst (scatterRay
               (fst (scatterRay
                       (sample_segment (glm.mkvec3 (4 / 5) (- (3 / 5)) 0))
                       (glm.mkvec3 0 0 0) (glm.mkvec3 0 1 0)
                       (sample_material 1 0) (constant_engine (1 / 2))))
               (glm.mkvec3 1 0 0) (glm.mkvec3 0 1 0) (sample_material 1 0)
               (snd (scatterRay
                       (sample_segment (glm.mkvec3 (4 / 5) (- (3 / 5)) 0))
                       (glm.mkvec3 0 0 0) (glm.mkvec3 0 1 0)
                       (sample_material 1 0) (constant_engine (1 / 2)))))))
  = glm.mkvec3 (4 / 5) (- (3 / 5)) 0.
Proof.
  apply (mirror_twice_restores_direction
           (sample_segment (glm.mkvec3 (4 / 5) (- (3 / 5)) 0))
           (glm.mkvec3 0 0 0) (glm.mkvec3 1 0 0) (glm.mkvec3 0 1 0)
           (sample_material 1 0) (constant_engine (1 / 2)) eq_refl eq_refl
           (proj1 sample_unit_vectors)).
Defined.

(** ** The refraction sub-branch *)

(** X11.  In the refraction sub-branch (positive discriminant, draw at most
    [reflectProb / 1.5]) between a unit normal and a unit incoming
    direction, normalising changes nothing: the new direction is the
    refracted vector itself, its component along the working normal is
    [- sqrt(discriminant) < 0], so the ray goes through the surface, and
    the new origin is the hit point moved by a hundredth of the new
    direction. *)
Theorem refraction_goes_through (pathSegment : PathSegment.t)
  (intersect normal : glm.vec3) (m : Material.t) (rng : engine) :
  Material.hasReflective m = 1 ->
  Material.hasRefractive m = 1 ->
  glm.length normal = 1 ->
  glm.length (Ray.direction (PathSegment.ray pathSegment)) = 1 ->
  discriminant pathSegment normal m > 0 ->
  rng 0%nat <= reflectProb pathSegment normal m / (3 / 2) ->
  let incoming := Ray.direction (PathSegment.ray pathSegment) in
  let workingNormal := refractNormal pathSegment normal in
  let after := fst (scatterRay pathSegment intersect normal m rng) in
  let outgoing := Ray.direction (PathSegment.ray after) in
  outgoing
  = glm.refract incoming workingNormal (niOvernt pathSegment normal m)
  /\ glm.dot outgoing workingNormal
     = - sqrt (discriminant pathSegment normal m)
  /\ glm.dot outgoing workingNormal < 0
  /\ Ray.origin (PathSegment.ray after)
     = glm.add intersect (glm.muls outgoing (1 / 100)).
Proof.
  intros R F Hn Hi Hd Hu incoming workingNormal after outgoing.
  subst outgoing after.
  apply length_unit_dot in Hn, Hi.
  rewrite (scatterRay_dielectric_refract pathSegment intersect normal m rng
             R F Hd Hu).
  simpl. fold incoming workingNormal.
  assert (Hk : glm.normalize
                 (glm.refract incoming workingNormal
                    (niOvernt pathSegment normal m))
               = glm.refract incoming workingNormal
                   (niOvernt pathSegment normal m))
    by (apply normalize_unit, refracted_unit; assumption).
  rewrite Hk.
  assert (Hdot : glm.dot (glm.refract incoming workingNormal
                            (niOvernt pathSegment normal m)) workingNormal
                 = - sqrt (discriminant pathSegment normal m)).
  { rewrite discriminant_refract. apply refract_dot_normal.
    - apply refractNormal_unit; exact Hn.
    - rewrite discriminant_refract in Hd. apply Rlt_le. exact Hd. }
  repeat split; try assumption.
  rewrite Hdot. pose proof (sqrt_lt_R0 _ Hd). lra.
Qed.

Lemma sample_slanted_disc :
  discriminant (sample_segment (glm.mkvec3 (4 / 5) (- (3 / 5)) 0))
               (glm.mkvec3 0 1 0) (sample_material 1 1) > 0.
Proof.
  unfold discriminant, cosine, niOvernt, refractNormal.
  assert (Hk : glm.dot (Ray.direction (PathSegment.ray
                 (sample_segment (glm.mkvec3 (4 / 5) (- (3 / 5)) 0))))
               (glm.mkvec3 0 1 0) <= 0)
    by (unfold glm.dot; simpl; lra).
  rewrite (proj2 (Rgtb_false _ _) Hk).
  unfold glm.dot; simpl. lra.
Qed.

Lemma sample_draw_refracts (pathSegment : PathSegment.t)
  (normal : glm.vec3) (m : Material.t) :
  constant_engine (1 / 2) 0%nat
  <= reflectProb pathSegment normal m / (3 / 2).
Proof. rewrite reflectProb_eq_1. unfold constant_engine. lra. Qed.

Lemma refraction_goes_through_witness :
  glm.dot
    (Ray.direction
       (PathSegment.ray
          (fst (scatterRay
                  (sample_segment (glm.mkvec3 (4 / 5) (- (3 / 5)) 0))
                  (glm.mkvec3 0 0 0) (glm.mkvec3 0 1 0)
                  (sample_material 1 1) (constant_engine (1 / 2))))))
    (refractNormal (sample_segment (glm.mkvec3 (4 / 5) (- (3 / 5)) 0))
                   (glm.mkvec3 0 1 0)) < 0.
Proof.
  apply (refraction_goes_through
           (sample_segment (glm.mkvec3 (4 / 5) (- (3 / 5)) 0))
           (glm.mkvec3 0 0 0) (glm.mkvec3 0 1 0) (sample_material 1 1)
           (constant_engine (1 / 2)) eq_refl eq_refl
           (proj1 sample_unit_vectors)
           (proj2 (proj2 (proj2 sample_unit_vectors)))
           sample_slanted_disc (sample_draw_refracts _ _ _)).
Defined.

(** X12.  The refraction sub-branch obeys Snell's law: between unit
    vectors, the cross product of the working normal with the new
    direction is [niOvernt] times its cross product with the incoming
    direction (the sines of the two angles are in the ratio [niOvernt], in
    the same plane and on the same side). *)
Theorem refraction_snell (pathSegment : PathSegment.t)
  (intersect normal : glm.vec3) (m : Material.t) (rng : engine) :
  Material.hasReflective m = 1 ->
  Material.hasRefractive m = 1 ->
  glm.length normal = 1 ->
  glm.length (Ray.direction (PathSegment.ray pathSegment)) = 1 ->
  discriminant pathSegment normal m > 0 ->
  rng 0%nat <= reflectProb pathSegment normal m / (3 / 2) ->
  let incoming := Ray.direction (PathSegment.ray pathSegment) in
  let workingNormal := refractNormal pathSegment normal in
  let outgoing :=
    Ray.direction
      (PathSegment.ray
         (fst (scatterRay pathSegment intersect normal m rng))) in
  glm.cross workingNormal outgoing
  = glm.smul (niOvernt pathSegment normal m)
             (glm.cross workingNormal incoming).
Proof.
  intros R F Hn Hi Hd Hu incoming workingNormal outgoing. subst outgoing.
  apply length_unit_dot in Hn, Hi.
  rewrite (scatterRay_dielectric_refract pathSegment intersect normal m rng
             R F Hd Hu).
  simpl. fold incoming workingNormal.
  rewrite normalize_unit by (apply refracted_unit; assumption).
  apply refract_cross.
  rewrite discriminant_refract in Hd. apply Rlt_le. exact Hd.
Qed.

Lemma refraction_snell_witness :
  glm.cross
    (refractNormal (sample_segment (glm.mkvec3 (4 / 5) (- (3 / 5)) 0))
                   (glm.mkvec3 0 1 0))
    (Ray.direction
       (PathSegment.ray
          (fst (scatterRay
                  (sample_segment (glm.mkvec3 (4 / 5) (- (3 / 5)) 0))
                  (glm.mkvec3 0 0 0) (glm.mkvec3 0 1 0)
                  (sample_material 1 1) (constant_engine (1 / 2))))))
  = glm.smul
      (niOvernt (sample_segment (glm.mkvec3 (4 / 5) (- (3 / 5)) 0))
                (glm.mkvec3 0 1 0) (sample_material 1 1))
      (glm.cross
         (refractNormal (sample_segment (glm.mkvec3 (4 / 5) (- (3 / 5)) 0))
                        (glm.mkvec3 0 1 0))
         (glm.mkvec3 (4 / 5) (- (3 / 5)) 0)).
Proof.
  apply (refraction_snell
           (sample_segment (glm.mkvec3 (4 / 5) (- (3 / 5)) 0))
           (glm.mkvec3 0 0 0) (glm.mkvec3 0 1 0) (sample_material 1 1)
           (constant_engine (1 / 2)) eq_refl eq_refl
           (proj1 sample_unit_vectors)
           (proj2 (proj2 (proj2 sample_unit_vectors)))
           sample_slanted_disc (sample_draw_refracts _ _ _)).
Defined.

(** ** The diffuse branch and the sampler *)

(** X13.  On a unit normal the diffuse branch ends the path exactly when
    the first draw is 0 (the sample is then tangent to the surface); for a
    first draw in (0,1] it scatters: the new direction is a unit vector
    with [dot(direction, normal) = sqrt(u1) > 0], the colour is multiplied
    by [material.color], one bounce is used and the origin is
    [intersect + normal * 1e-4]. *)
Theorem diffuse_on_unit_normal (pathSegment : PathSegment.t)
  (intersect normal : glm.vec3) (m : Material.t) (rng : engine) :
  Material.hasReflective m = 0 ->
  Material.hasRefractive m = 0 ->
  glm.length normal = 1 ->
  0 <= rng 0%nat <= 1 ->
  let after := fst (scatterRay pathSegment intersect normal m rng) in
  (rng 0%nat = 0 ->
   PathSegment.remainingBounces after = 0%Z
   /\ PathSegment.color after = glm.mkvec3 0 0 0
   /\ PathSegment.ray after = PathSegment.ray pathSegment)
  /\ (0 < rng 0%nat ->
      glm.length (Ray.direction (PathSegment.ray after)) = 1
      /\ glm.dot (Ray.direction (PathSegment.ray after)) normal
         = sqrt (rng 0%nat)
      /\ 0 < glm.dot (Ray.direction (PathSegment.ray after)) normal
      /\ PathSegment.color after
         = glm.mul (PathSegment.color pathSegment) (Material.color m)
      /\ PathSegment.remainingBounces after
         = (PathSegment.remainingBounces pathSegment - 1)%Z
      /\ Ray.origin (PathSegment.ray after)
         = glm.add intersect (glm.muls normal (1 / 10000))).
Proof.
  intros R F Hn Hu after. subst after. apply length_unit_dot in Hn.
  pose proof (diffuse_pdf_unit normal rng Hn) as Hpdf.
  pose proof PI_RGT_0 as Hpi.
  split.
  - intros H0.
    assert (Hp : diffuse_pdf normal rng = 0)
      by (rewrite Hpdf, H0, sqrt_0; unfold Rdiv; ring).
    rewrite (scatterRay_diffuse_zero pathSegment intersect normal m rng
               R F Hp).
    repeat split.
  - intros Hpos.
    assert (Hs : 0 < sqrt (rng 0%nat)) by (apply sqrt_lt_R0; exact Hpos).
    assert (Hp : diffuse_pdf normal rng <> 0).
    { rewrite Hpdf.
      assert (0 < sqrt (rng 0%nat) / PI)
        by (apply Rdiv_lt_0_compat; assumption).
      lra. }
    rewrite (scatterRay_diffuse_pos pathSegment intersect normal m rng
               R F Hp).
    unfold diffuse_pdf in Hp |- *. rewrite (diffuse_weight _ _ Hp).
    pose proof (hemisphere_dot_normal normal Hn rng) as Hd.
    pose proof (hemisphere_dot_self normal Hn rng Hu) as Hl.
    remember (fst (calculateRandomDirectionInHemisphere normal rng)) as d.
    simpl. rewrite Hd.
    repeat split; try assumption.
    apply dot_unit_length; exact Hl.
Qed.

Lemma diffuse_on_unit_normal_witness :
  0 < glm.dot
        (Ray.direction
           (PathSegment.ray
              (fst (scatterRay (sample_segment (glm.mkvec3 0 (-1) 0))
                      (glm.mkvec3 0 0 0) (glm.mkvec3 0 1 0)
                      (sample_material 0 0) (constant_engine (1 / 4))))))
        (glm.mkvec3 0 1 0).
Proof.
  assert (Hu : 0 <= constant_engine (1 / 4) 0%nat <= 1)
    by (unfold constant_engine; lra).
  destruct (diffuse_on_unit_normal (sample_segment (glm.mkvec3 0 (-1) 0))
              (glm.mkvec3 0 0 0) (glm.mkvec3 0 1 0) (sample_material 0 0)
              (constant_engine (1 / 4)) eq_refl eq_refl
              (proj1 sample_unit_vectors) Hu) as (_ & Hs).
  apply Hs. unfold constant_engine. lra.
Defined.

(** X14.  For a unit normal the sampler's two perpendicular directions and
    the normal form an orthonormal frame: both are unit vectors, orthogonal
    to the normal and to each other, and the second is the cross product of
    the normal with the first (its normalisation changes nothing). *)
Theorem hemisphere_frame_orthonormal (normal : glm.vec3) :
  glm.length normal = 1 ->
  glm.length (perpendicularDirection1 normal) = 1
  /\ glm.length (perpendicularDirection2 normal) = 1
  /\ glm.dot normal (perpendicularDirection1 normal) = 0
  /\ glm.dot normal (perpendicularDirection2 normal) = 0
  /\ glm.dot (perpendicularDirection1 normal)
             (perpendicularDirection2 normal) = 0
  /\ perpendicularDirection2 normal
     = glm.cross normal (perpendicularDirection1 normal).
Proof.
  intros Hn. apply length_unit_dot in Hn.
  split; [apply dot_unit_length, perp1_unit; exact Hn|].
  split; [apply dot_unit_length, perp2_unit; exact Hn|].
  split; [apply perp1_orth; exact Hn|].
  split; [apply perp2_orth; exact Hn|].
  split; [apply perp12_orth | apply perp2_eq]; exact Hn.
Qed.

Lemma hemisphere_frame_orthonormal_witness :
  glm.dot (perpendicularDirection1 (glm.mkvec3 (4 / 5) (3 / 5) 0))
          (perpendicularDirection2 (glm.mkvec3 (4 / 5) (3 / 5) 0)) = 0.
Proof.
  apply (hemisphere_frame_orthonormal (glm.mkvec3 (4 / 5) (3 / 5) 0)
           (proj1 (proj2 (proj2 sample_unit_vectors)))).
Defined.

(** X15.  The axis test of lines 25-31 never picks an axis parallel to a
    unit normal: the cross product that is normalised next has squared
    length at least 2/3. *)
Theorem directionNotNormal_cross_bound (normal : glm.vec3) :
  glm.length normal = 1 ->
  2 / 3 <= glm.dot (glm.cross normal (directionNotNormal normal))
                   (glm.cross normal (directionNotNormal normal)).
Proof.
  intros Hn. apply length_unit_dot in Hn.
  destruct SQRT_OF_ONE_THIRD_sqr as [Hs Hss].
  rewrite dot_cross_cross, Hn.
  unfold directionNotNormal.
  destruct (Rltb (Rabs (glm.x normal)) SQRT_OF_ONE_THIRD) eqn:Hx.
  - apply Rltb_true, Rabs_sqr_lt in Hx.
    unfold glm.dot; simpl. nra.
  - apply Rltb_false in Hx. apply Rabs_sqr_ge in Hx; [|lra].
    destruct (Rltb (Rabs (glm.y normal)) SQRT_OF_ONE_THIRD) eqn:Hy.
    + apply Rltb_true, Rabs_sqr_lt in Hy.
      unfold glm.dot; simpl. nra.
    + apply Rltb_false in Hy. apply Rabs_sqr_ge in Hy; [|lra].
      revert Hn. unfold glm.dot; simpl. nra.
Qed.

Lemma directionNotNormal_cross_bound_witness :
  2 / 3 <= glm.dot (glm.cross (glm.mkvec3 0 1 0)
                              (directionNotNormal (glm.mkvec3 0 1 0)))
                   (glm.cross (glm.mkvec3 0 1 0)
                              (directionNotNormal (glm.mkvec3 0 1 0))).
Proof.
  apply (directionNotNormal_cross_bound (glm.mkvec3 0 1 0)
           (proj1 sample_unit_vectors)).
Defined.

(** ** Reflection in the dielectric branch *)

(** X16.  When the dielectric branch reflects (total internal reflection,
    or a draw above [reflectProb / 1.5]) off a unit normal, the new ray
    stays on the side the incoming ray came from: its component along the
    working normal is the opposite of the incoming one, hence not negative,
    and the new origin is a hundredth of a unit from the hit point on that
    same side. *)
Theorem dielectric_reflection_stays_outside (pathSegment : PathSegment.t)
  (intersect normal : glm.vec3) (m : Material.t) (rng : engine) :
  Material.hasReflective m = 1 ->
  Material.hasRefractive m = 1 ->
  glm.length normal = 1 ->
  discriminant pathSegment normal m <= 0
  \/ rng 0%nat > reflectProb pathSegment normal m / (3 / 2) ->
  let incoming := Ray.direction (PathSegment.ray pathSegment) in
  let workingNormal := refractNormal pathSegment normal in
  let after := fst (scatterRay pathSegment intersect normal m rng) in
  glm.dot (Ray.direction (PathSegment.ray after)) workingNormal
  = - glm.dot incoming workingNormal
  /\ 0 <= glm.dot (Ray.direction (PathSegment.ray after)) workingNormal
  /\ glm.dot (glm.sub (Ray.origin (PathSegment.ray after)) intersect)
             workingNormal = 1 / 100.
Proof.
  intros R F Hn Hcase incoming workingNormal after. subst after.
  apply length_unit_dot in Hn.
  pose proof (refractNormal_unit pathSegment normal Hn) as Hw.
  pose proof (cosine_nonpos pathSegment normal) as Hc. unfold cosine in Hc.
  fold incoming workingNormal in Hw, Hc.
  assert (Hdir : glm.dot (glm.reflect incoming workingNormal) workingNormal
                 = - glm.dot incoming workingNormal)
    by (apply reflect_dot_normal; exact Hw).
  assert (Horg : glm.dot
                   (glm.sub (glm.add intersect
                               (glm.muls workingNormal (1 / 100)))
                            intersect) workingNormal = 1 / 100).
  { replace (glm.dot (glm.sub (glm.add intersect
                                 (glm.muls workingNormal (1 / 100)))
                              intersect) workingNormal)
      with (1 / 100 * glm.dot workingNormal workingNormal)
      by (unfold glm.dot, glm.sub, glm.add, glm.muls; simpl; ring).
    rewrite Hw. ring. }
  assert (Hgoal :
    forall r,
      r = PathSegment.mk
            (Ray.mk (glm.add intersect (glm.muls workingNormal (1 / 100)))
                    (glm.reflect incoming workingNormal))
            (PathSegment.color r) (PathSegment.remainingBounces r) ->
      glm.dot (Ray.direction (PathSegment.ray r)) workingNormal
      = - glm.dot incoming workingNormal
      /\ 0 <= glm.dot (Ray.direction (PathSegment.ray r)) workingNormal
      /\ glm.dot (glm.sub (Ray.origin (PathSegment.ray r)) intersect)
                 workingNormal = 1 / 100).
  { intros r ->. simpl. rewrite Hdir. repeat split; [lra | exact Horg]. }
  destruct (Rgt_dec (discriminant pathSegment normal m) 0) as [Hd|Hd].
  - destruct Hcase as [Hle|Hu]; [lra|].
    apply Hgoal.
    rewrite (scatterRay_dielectric_reflect pathSegment intersect normal m
               rng R F Hd Hu).
    reflexivity.
  - apply Rnot_gt_le in Hd. apply Hgoal.
    rewrite (scatterRay_dielectric_tir pathSegment intersect normal m rng
               R F Hd).
    reflexivity.
Qed.

Lemma sample_grazing_disc :
  discriminant (sample_segment (glm.mkvec3 (4 / 5) (3 / 5) 0))
               (glm.mkvec3 0 1 0) (sample_material 1 1) <= 0.
Proof.
  rewrite discriminant_formula. apply sample_grazing_discriminant.
Qed.

Lemma dielectric_reflection_stays_outside_witness :
  glm.dot
    (glm.sub
       (Ray.origin
          (PathSegment.ray
             (fst (scatterRay
                     (sample_segment (glm.mkvec3 (4 / 5) (3 / 5) 0))
                     (glm.mkvec3 0 0 0) (glm.mkvec3 0 1 0)
                     (sample_material 1 1) (constant_engine (1 / 2))))))
       (glm.mkvec3 0 0 0))
    (refractNormal (sample_segment (glm.mkvec3 (4 / 5) (3 / 5) 0))
                   (glm.mkvec3 0 1 0)) = 1 / 100.
Proof.
  apply (dielectric_reflection_stays_outside
           (sample_segment (glm.mkvec3 (4 / 5) (3 / 5) 0))
           (glm.mkvec3 0 0 0) (glm.mkvec3 0 1 0) (sample_material 1 1)
           (constant_engine (1 / 2)) eq_refl eq_refl
           (proj1 sample_unit_vectors) (or_introl sample_grazing_disc)).
Defined.
